(** * A shallow embedding of the blog's utilities

    The development follows the JavaScript sources:

    - [utils/mdx-utils.js]: directory scan, date sort, adjacent-post lookup;
    - the global-data module ([getGlobalData]);
    - [utils/tailwind-preset.js]: the [themesConfig] plugin;
    - [components/Layout.js]: the theme effect run on mount.

    Builtins of the platform that the sources call (regular expressions,
    [Array.prototype.sort], [find], [indexOf], [classList]) are modelled next
    to the code that uses them.  Functions of the platform whose result the
    sources only pass along ([fs], [gray-matter], [Date.parse], [decodeURI],
    [path.join]) are fields of a record the definitions are parameterised
    by.

    The model comes first, then the vocabulary of the properties and a small
    blog to run the model on, then the facts. *)

From Stdlib Require Import ZArith Ascii.
From stdpp Require Import gmap strings list sorting.

Local Open Scope Z_scope.

(** * The model *)

(** ** Regular expressions

    The fragment of ECMAScript patterns that the sources use, with the
    backtracking semantics of the language: a matcher takes the rest of the
    input and a continuation, and a greedy [?] first tries its operand. *)

Module RegExp.

Inductive regex : Type :=
  | Char (c : ascii)          (* a literal or an escaped character *)
  | Opt (r : regex)           (* [r?], greedy *)
  | Seq (r1 r2 : regex)
  | End.                      (* [$] without the [m] flag *)

Fixpoint matcher {R} (r : regex) (s : string) (k : string → option R) : option R :=
  match r with
  | Char c =>
      match s with
      | String c' s' => if decide (c = c') then k s' else None
      | EmptyString => None
      end
  | Opt r' =>
      match matcher r' s k with
      | Some x => Some x
      | None => k s
      end
  | Seq r1 r2 => matcher r1 s (λ s', matcher r2 s' k)
  | End =>
      match s with
      | EmptyString => k s
      | String _ _ => None
      end
  end.

(** [exec r s] tries every start index from 0 up to the length of [s] and
    stops at the first that matches; it gives the text before the match and
    the text after it. *)
Fixpoint exec (r : regex) (s : string) : option (string * string) :=
  match matcher r s Some with
  | Some rest => Some (EmptyString, rest)
  | None =>
      match s with
      | EmptyString => None
      | String c s' =>
          match exec r s' with
          | Some (before, rest) => Some (String c before, rest)
          | None => None
          end
      end
  end.

(** [r.test(s)] *)
Definition test (r : regex) (s : string) : bool :=
  match exec r s with Some _ => true | None => false end.

(** [s.replace(r, by)] for a pattern without the [g] flag and a
    replacement without [$] patterns. *)
Definition replace (s : string) (r : regex) (by_ : string) : string :=
  match exec r s with
  | Some (before, rest) => before +:+ by_ +:+ rest
  | None => s
  end.

End RegExp.

(** ** utils/mdx-utils.js *)

Module MdxUtils.

Import RegExp.

(** [/\.mdx?$/] *)
Definition MDX_RE : regex :=
  Seq (Char ".") (Seq (Char "m") (Seq (Char "d") (Seq (Opt (Char "x")) End))).

(** *** Values *)

(** A JavaScript number as far as the code needs it: the time value of a
    [Date] is an integral number of milliseconds or [NaN], and so is the
    difference of two of them (only its sign is used, which rounding to a
    double keeps). *)
Inductive Number : Type := NaN | Finite (z : Z).

Definition Number_sub (x y : Number) : Number :=
  match x, y with
  | Finite a, Finite b => Finite (a - b)
  | _, _ => NaN
  end.

(** The [date] property of a post's front matter as gray-matter gives it:
    a [Date] for a YAML timestamp, a string for a quoted scalar, absent
    otherwise. *)
Inductive DateField : Type :=
  | DateUndefined
  | DateString (s : string)
  | DateObject (tv : Number).

(** [data]: the front matter of a post. *)
Record FrontMatter : Type := {
  title : option string;
  date : DateField;
}.

(** The objects that [getPosts] builds: [{ content, data, filePath }]. *)
Record Post : Type := {
  content : string;
  data : FrontMatter;
  filePath : string;
}.

(** The result of the navigation functions: [{ title, slug }]. *)
Module Link.
Record t : Type := { title : option string; slug : string }.
End Link.

(** *** Platform *)

Record Platform : Type := {
  cwd : string;                                       (* process.cwd() *)
  path_join : string → string → string;               (* path.join *)
  readdirSync : string → option (list string);        (* None: it throws *)
  readFileSync : string → option string;              (* None: it throws *)
  matter : string → option (string * FrontMatter);    (* content and data *)
  Date_parse : string → Number;
  serialize : string → FrontMatter → option string;   (* None: it rejects *)
}.

(** *** Heap

    Posts and arrays are objects with an identity: [sort] works in place
    and [indexOf] compares references. *)

Abbreviation loc := nat (only parsing).

Inductive Obj : Type :=
  | PostObj (p : Post)
  | ArrayObj (elems : list loc).

Abbreviation Heap := (list Obj) (only parsing).

Definition get_post (h : Heap) (l : loc) : option Post :=
  match h !! l with Some (PostObj p) => Some p | _ => None end.

Definition get_array (h : Heap) (l : loc) : option (list loc) :=
  match h !! l with Some (ArrayObj elems) => Some elems | _ => None end.

(** The posts an array holds, in the order of the array. *)
Definition array_posts (h : Heap) (a : loc) : option (list Post) :=
  elems ← get_array h a; mapM (get_post h) elems.

(** Computations on the heap that may throw. *)
Definition M (A : Type) : Type := Heap → option (A * Heap).

Definition ret {A} (x : A) : M A := λ h, Some (x, h).

Definition bind {A B} (m : M A) (k : A → M B) : M B :=
  λ h, match m h with Some (x, h') => k x h' | None => None end.

Definition lift {A} (o : option A) : M A :=
  λ h, match o with Some x => Some (x, h) | None => None end.

Definition read {A} (f : Heap → option A) : M A := λ h, lift (f h) h.

Definition alloc (o : Obj) : M loc := λ h, Some (length h, h ++ [o]).

Notation "'let*' x ':=' m 'in' k" := (bind m (λ x, k))
  (at level 10, x name, m at level 100, k at level 200, only parsing).
Notation "'let*' ' p ':=' m 'in' k" := (bind m (λ x, match x with p => k end))
  (at level 10, p pattern, m at level 100, k at level 200, only parsing).

(** [array.map(f)] for an [f] with effects, on the elements in order. *)
Fixpoint Array_map {A B} (f : A → M B) (l : list A) : M (list B) :=
  match l with
  | [] => ret []
  | x :: l' =>
      let* y := f x in
      let* ys := Array_map f l' in
      ret (y :: ys)
  end.

(** *** Array.prototype.sort

    The comparator may throw ([None]); a [NaN] result counts as [+0]
    (SortCompare).  The sort is stable: an element is put before the first
    element of the sorted rest that it does not have to follow. *)
Section Sort.
Context {A : Type} (comparefn : A → A → option Number).

Definition SortCompare (x y : A) : option Z :=
  v ← comparefn x y;
  Some (match v with NaN => 0 | Finite z => z end).

Fixpoint sort_insert (x : A) (l : list A) : option (list A) :=
  match l with
  | [] => Some [x]
  | y :: l' =>
      c ← SortCompare x y;
      if decide (c ≤ 0) then Some (x :: y :: l')
      else l'' ← sort_insert x l'; Some (y :: l'')
  end.

Fixpoint Array_sort (l : list A) : option (list A) :=
  match l with
  | [] => Some []
  | x :: l' => s ← Array_sort l'; sort_insert x s
  end.

End Sort.

(** [array.find(pred)], with [pred] reading the post an element refers to;
    [Some None] is [undefined]. *)
Fixpoint Array_find (h : Heap) (pred : Post → bool) (elems : list loc)
    : option (option loc) :=
  match elems with
  | [] => Some None
  | l :: elems' =>
      p ← get_post h l;
      if pred p then Some (Some l) else Array_find h pred elems'
  end.

(** [array.indexOf(v)]: strict equality, which on objects is identity;
    [v] is a reference or [undefined], and no element is [undefined]. *)
Fixpoint indexOf_from (k : Z) (elems : list loc) (v : option loc) : Z :=
  match elems with
  | [] => -1
  | l :: elems' => if decide (v = Some l) then k else indexOf_from (k + 1) elems' v
  end.

Definition Array_indexOf (elems : list loc) (v : option loc) : Z :=
  indexOf_from 0 elems v.

(** [array[i]]: [undefined] outside the array. *)
Definition Array_get (elems : list loc) (i : Z) : option loc :=
  if decide (0 ≤ i) then elems !! Z.to_nat i else None.

(** *** The functions of the module *)

Section Functions.
Variable pf : Platform.

Definition POSTS_PATH : string := path_join pf (cwd pf) "posts".

Definition getPostFilePaths : option (list string) :=
  entries ← readdirSync pf POSTS_PATH;
  (* Only include md(x) files *)
  Some (filter (λ path, test MDX_RE path = true) entries).

(** [new Date(v)] for the value of [data.date]. *)
Definition new_Date (v : DateField) : Number :=
  match v with
  | DateUndefined => NaN
  | DateString s => Date_parse pf s
  | DateObject tv => tv
  end.

(** The comparator of [sortPostsByDate]; it throws when an element is
    not a post. *)
Definition compareDates (h : Heap) (a b : loc) : option Number :=
  pa ← get_post h a;
  pb ← get_post h b;
  let aDate := new_Date (date (data pa)) in
  let bDate := new_Date (date (data pb)) in
  Some (Number_sub bDate aDate).

Definition sortPostsByDate (posts : loc) : M loc := λ h,
  elems ← get_array h posts;
  sorted ← Array_sort (compareDates h) elems;
  Some (posts, <[posts := ArrayObj sorted]> h).

Definition getPosts : M loc :=
  let* paths := lift getPostFilePaths in
  let* elems := Array_map (λ filePath,
      let* source := lift (readFileSync pf (path_join pf POSTS_PATH filePath)) in
      let* '(content, data) := lift (matter pf source) in
      alloc (PostObj {| content := content; data := data; filePath := filePath |}))
    paths in
  let* posts := alloc (ArrayObj elems) in
  let* posts := sortPostsByDate posts in
  ret posts.

(** The promise of [getPostBySlug], when it is fulfilled:
    [{ mdxSource, data, postFilePath }]. *)
Definition getPostBySlug (slug : string)
    : option (string * FrontMatter * string) :=
  let postFilePath := path_join pf POSTS_PATH (slug +:+ ".mdx") in
  source ← readFileSync pf postFilePath;
  '(content, data) ← matter pf source;
  mdxSource ← serialize pf content data;
  Some (mdxSource, data, postFilePath).

Definition getNextPostBySlug (slug : string) : M (option Link.t) :=
  let* posts := getPosts in
  let* elems := read (λ h, get_array h posts) in
  let currentFileName := slug +:+ ".mdx" in
  let* currentPost := read (λ h,
      Array_find h (λ post, bool_decide (filePath post = currentFileName)) elems) in
  let currentPostIndex := Array_indexOf elems currentPost in
  match Array_get elems (currentPostIndex - 1) with
  | None => ret None
  | Some post =>
      let* p := read (λ h, get_post h post) in
      let nextPostSlug := replace (filePath p) MDX_RE EmptyString in
      ret (Some {| Link.title := title (data p); Link.slug := nextPostSlug |})
  end.

Definition getPreviousPostBySlug (slug : string) : M (option Link.t) :=
  let* posts := getPosts in
  let* elems := read (λ h, get_array h posts) in
  let currentFileName := slug +:+ ".mdx" in
  let* currentPost := read (λ h,
      Array_find h (λ post, bool_decide (filePath post = currentFileName)) elems) in
  let currentPostIndex := Array_indexOf elems currentPost in
  match Array_get elems (currentPostIndex + 1) with
  | None => ret None
  | Some post =>
      let* p := read (λ h, get_post h post) in
      let previousPostSlug := replace (filePath p) MDX_RE EmptyString in
      ret (Some {| Link.title := title (data p); Link.slug := previousPostSlug |})
  end.

End Functions.

End MdxUtils.

(** ** The global-data module *)

Module GlobalData.

Record t : Type := {
  name : string;
  blogTitle : string;
  footerText : string;
}.

Section Functions.
(** [decodeURI]; [None]: it throws a URIError. *)
Variable decodeURI : string → option string.

(** [v ? decodeURI(v) : otherwise] for the value [v] of an environment
    variable: a string, or undefined ([None]); the empty string is the
    only falsy string. *)
Definition decoded_or (v : option string) (otherwise : string) : option string :=
  match v with
  | Some s => if decide (s = EmptyString) then Some otherwise else decodeURI s
  | None => Some otherwise
  end.

(** [env] is [process.env]. *)
Definition getGlobalData (env : gmap string string) : option t :=
  name ← decoded_or (env !! "BLOG_NAME") "Jay Doe";
  blogTitle ← decoded_or (env !! "BLOG_TITLE") "Next.js Blog Theme";
  footerText ← decoded_or (env !! "BLOG_FOOTER_TEXT") "All rights reserved.";
  Some {| name := name; blogTitle := blogTitle; footerText := footerText |}.

End Functions.

End GlobalData.

(** ** utils/tailwind-preset.js *)

Module TailwindPreset.

(** The value of a CSS variable: a string, undefined, or the member of
    [Object.prototype] of the given name, which a table written as an
    object literal inherits. *)
Inductive value : Type := Undefined | Str (s : string) | Inherited (name : string).

(** The names of the members of [Object.prototype]. *)
Definition Object_prototype : list string :=
  ["constructor"; "__defineGetter__"; "__defineSetter__"; "hasOwnProperty";
   "__lookupGetter__"; "__lookupSetter__"; "isPrototypeOf"; "propertyIsEnumerable";
   "toString"; "valueOf"; "__proto__"; "toLocaleString"].

(** An entry of [COLOR_THEMES]: [{ colors: { key: color, ... } }]. *)
Record ColorTheme : Type := { colors : gmap string string }.

(** [v || otherwise] for the value of an environment variable. *)
Definition or_default (v : option string) (otherwise : string) : string :=
  match v with
  | Some s => if decide (s = EmptyString) then otherwise else s
  | None => otherwise
  end.

(** [table[key]]: the entry of the table; without one, the member of
    [Object.prototype] of that name; without one, undefined. *)
Definition get (table : gmap string string) (key : string) : value :=
  match table !! key with
  | Some s => Str s
  | None => if decide (key ∈ Object_prototype) then Inherited key else Undefined
  end.

(** [Object.keys(o)] *)
Definition Object_keys {A} (o : gmap string A) : list string := (map_to_list o).*1.

Section Plugin.
(** The tables of the [themes] module and [process.env]. *)
Variables (COLOR_THEMES : gmap string ColorTheme) (FONT_THEMES : gmap string string).
Variable env : gmap string string.

Definition THEME : string := or_default (env !! "BLOG_THEME") "default".
Definition FONT_PRIMARY : string := or_default (env !! "BLOG_FONT_HEADINGS") "sans-serif".
Definition FONT_SECONDARY : string := or_default (env !! "BLOG_FONT_BODY") "sans-serif".

(** One round of the loop over the color keys. *)
Definition add_color (theme : ColorTheme) (cssVars : gmap string value) (key : string)
    : gmap string value :=
  <["--color-" +:+ key := Str (default "undefined" (colors theme !! key))]> cssVars.

(** The plugin, as the list of the objects it passes to [addComponents];
    [None]: it throws, [COLOR_THEMES] having no entry for the selected
    theme (what it inherits from [Object.prototype] has no [colors], so
    that the loop throws on it as on undefined). *)
Definition themesConfig : option (list (gmap string (gmap string value))) :=
  theme ← COLOR_THEMES !! THEME;
  let cssVars := ∅ in
  (* Extract color variables from the selected theme. *)
  let cssVars := foldl (add_color theme) cssVars (Object_keys (colors theme)) in
  (* Extract font variables from the selected theme. *)
  let cssVars := <["--font-primary" := get FONT_THEMES FONT_PRIMARY]> cssVars in
  let cssVars := <["--font-secondary" := get FONT_THEMES FONT_SECONDARY]> cssVars in
  let themeCompiled := {[ ".theme-compiled" := cssVars ]} in
  Some [themeCompiled].

End Plugin.

End TailwindPreset.

(** ** components/Layout.js *)

Module Layout.

(** The handlers the component registers. *)
Inductive Handler : Type := SystemThemeChange.

(** The part of the browser that the effects of [Layout] touch. *)
Record Browser : Type := {
  localStorage : gmap string string;
  classList : list string;              (* of [document.documentElement] *)
  darkQuery_onchange : option Handler;  (* of the dark-scheme media query *)
}.

(** [classList.add(token)]: the list is a set, a new token goes last. *)
Definition classList_add (token : string) (b : Browser) : Browser :=
  {| localStorage := localStorage b;
     classList := if decide (token ∈ classList b) then classList b
                  else classList b ++ [token];
     darkQuery_onchange := darkQuery_onchange b |}.

(** [classList.remove(token)] *)
Definition classList_remove (token : string) (b : Browser) : Browser :=
  {| localStorage := localStorage b;
     classList := filter (λ c, c ≠ token) (classList b);
     darkQuery_onchange := darkQuery_onchange b |}.

(** [localStorage.getItem(key)]; [None] is null. *)
Definition getItem (key : string) (b : Browser) : option string :=
  localStorage b !! key.

Definition setItem (key v : string) (b : Browser) : Browser :=
  {| localStorage := <[key := v]> (localStorage b);
     classList := classList b;
     darkQuery_onchange := darkQuery_onchange b |}.

Definition setAppTheme (b : Browser) : Browser :=
  let darkMode := bool_decide (getItem "theme" b = Some "dark") in
  let lightMode := bool_decide (getItem "theme" b = Some "light") in
  if darkMode then classList_add "dark" b
  else if lightMode then classList_remove "dark" b
  else b.

(** The handler of [handleSystemThemeChange], run on an event with the
    given [matches]. *)
Definition onchange (matches : bool) (b : Browser) : Browser :=
  if matches then setItem "theme" "dark" (classList_add "dark" b)
  else setItem "theme" "light" (classList_remove "dark" b).

Definition handleSystemThemeChange (b : Browser) : Browser :=
  {| localStorage := localStorage b;
     classList := classList b;
     darkQuery_onchange := Some SystemThemeChange |}.

(** The two effects of the component, run once, in order, on mount. *)
Definition mount (b : Browser) : Browser :=
  handleSystemThemeChange (setAppTheme b).

End Layout.

(** * The vocabulary of the properties *)

Module MdxSpec.

Import RegExp MdxUtils.

(** A file name has the extension of a post when it ends in [.md] or
    [.mdx]. *)
Definition md_extension (name : string) : Prop :=
  ∃ stem, name = stem +:+ ".md" ∨ name = stem +:+ ".mdx".

(** Descending order of a key. *)
Definition descending {A} (key : A → Z) (x y : A) : Prop := key y ≤ key x.

Section WithPlatform.
Variable pf : Platform.

Definition valid_date (p : Post) : Prop :=
  new_Date pf (date (data p)) ≠ NaN.

(** [p]'s date [>=] [q]'s date, as the language compares two time
    values: false as soon as one is [NaN]. *)
Definition date_ge (p q : Post) : Prop :=
  match new_Date pf (date (data p)), new_Date pf (date (data q)) with
  | Finite a, Finite b => b ≤ a
  | _, _ => False
  end.

(** Newest first: each post's date is at least the date of the next. *)
Definition date_descending (ps : list Post) : Prop :=
  ∀ i p q, ps !! i = Some p → ps !! S i = Some q → date_ge p q.

Definition date_key (h : Heap) (l : loc) : Z :=
  match get_post h l with
  | Some p => match new_Date pf (date (data p)) with Finite z => z | NaN => 0 end
  | None => 0
  end.

(** The directory listing has no entry twice. *)
Definition distinct_entries : Prop :=
  ∀ entries, readdirSync pf (POSTS_PATH pf) = Some entries → NoDup entries.

(** What one round of the callback of [map] reads. *)
Definition readPost (filePath : string) : option Post :=
  source ← readFileSync pf (path_join pf (POSTS_PATH pf) filePath);
  '(content, data) ← matter pf source;
  Some {| content := content; data := data; filePath := filePath |}.

(** The link that the navigation functions build from a post. *)
Definition link_of (p : Post) : Link.t :=
  {| Link.title := title (data p);
     Link.slug := replace (filePath p) MDX_RE EmptyString |}.

(** [posts[i]] on the posts themselves. *)
Definition post_at (ps : list Post) (i : Z) : option Post :=
  if decide (0 ≤ i) then ps !! Z.to_nat i else None.

(** The two navigation functions differ in the offset only. *)
Definition adjacentPostBySlug (offset : Z) (slug : string) : M (option Link.t) :=
  let* posts := getPosts pf in
  let* elems := read (λ h, get_array h posts) in
  let currentFileName := slug +:+ ".mdx" in
  let* currentPost := read (λ h,
      Array_find h (λ post, bool_decide (filePath post = currentFileName)) elems) in
  let currentPostIndex := Array_indexOf elems currentPost in
  match Array_get elems (currentPostIndex + offset) with
  | None => ret None
  | Some post =>
      let* p := read (λ h, get_post h post) in
      ret (Some (link_of p))
  end.

(** [p] is a newest post of [ps]: no post of [ps] has a later date. *)
Definition newest (p : Post) (ps : list Post) : Prop :=
  ∀ o, o ∈ ps → date_ge p o.

(** [p] is an oldest post of [ps]: no post of [ps] has an earlier date. *)
Definition oldest (p : Post) (ps : list Post) : Prop :=
  ∀ o, o ∈ ps → date_ge o p.

(** [newer] and [older] are neighbours in date among [ps]: [newer] is not
    older than [older], and no post of [ps] has a date strictly between
    theirs. *)
Definition date_neighbours (newer older : Post) (ps : list Post) : Prop :=
  date_ge newer older ∧ ∀ o, o ∈ ps → date_ge o newer ∨ date_ge older o.

End WithPlatform.

End MdxSpec.

Module GlobalDataSpec.

Import GlobalData.

Section WithDecoder.
Variable decodeURI : string → option string.

(** A variable of the environment that is set and not empty can be
    decoded. *)
Definition decodable (env : gmap string string) (key : string) : Prop :=
  ∀ s, env !! key = Some s → s ≠ EmptyString → is_Some (decodeURI s).

(** What a field of the result is, given the variable it comes from. *)
Definition field_of (env : gmap string string) (key otherwise x : string) : Prop :=
  (∀ s, env !! key = Some s → s ≠ EmptyString → decodeURI s = Some x) ∧
  (env !! key = None → x = otherwise) ∧
  (env !! key = Some EmptyString → x = otherwise).

End WithDecoder.

End GlobalDataSpec.

Module TailwindSpec.

Import TailwindPreset.

(** [x] is the value of the variable [key] of the environment when it is
    set and not empty, and [otherwise] when it is unset or empty. *)
Definition selected (env : gmap string string) (key otherwise x : string) : Prop :=
  (∀ s, env !! key = Some s → s ≠ EmptyString → x = s) ∧
  (env !! key = None → x = otherwise) ∧
  (env !! key = Some EmptyString → x = otherwise).

(** [v] is what reading [table] at [key] gives: the entry of the table;
    without one, the member of [Object.prototype] of that name; without
    one, undefined. *)
Definition read_at (table : gmap string string) (key : string) (v : value) : Prop :=
  (∀ s, table !! key = Some s → v = Str s) ∧
  (table !! key = None → key ∈ Object_prototype → v = Inherited key) ∧
  (table !! key = None → key ∉ Object_prototype → v = Undefined).

End TailwindSpec.

(** ** A small blog

    Three posts and a file that is not a post; the listing is in the order
    of the names, the dates are in the opposite order, and the second post
    is a [.md] file. *)

Module Demo.

Import RegExp MdxUtils.

Definition front (t : string) (d : DateField) : FrontMatter :=
  {| title := Some t; date := d |}.

Definition alpha : Post :=
  {| content := "one"; data := front "Alpha" (DateObject (Finite 10)); filePath := "alpha.mdx" |}.
Definition beta : Post :=
  {| content := "two"; data := front "Beta" (DateObject (Finite 20)); filePath := "beta.md" |}.
Definition gamma : Post :=
  {| content := "three"; data := front "Gamma" (DateObject (Finite 30)); filePath := "gamma.mdx" |}.

Definition blog : Platform := {|
  cwd := "/app";
  path_join := λ dir name, dir +:+ "/" +:+ name;
  readdirSync := λ dir,
    if decide (dir = "/app/posts")
    then Some ["alpha.mdx"; "beta.md"; "gamma.mdx"; "notes.txt"]
    else None;
  readFileSync := λ file,
    if decide (file = "/app/posts/alpha.mdx") then Some "A"
    else if decide (file = "/app/posts/beta.md") then Some "B"
    else if decide (file = "/app/posts/gamma.mdx") then Some "C"
    else if decide (file = "/app/posts/notes.txt") then Some "N"
    else None;
  matter := λ source,
    if decide (source = "A") then Some (content alpha, data alpha)
    else if decide (source = "B") then Some (content beta, data beta)
    else if decide (source = "C") then Some (content gamma, data gamma)
    else None;
  Date_parse := λ _, NaN;
  serialize := λ content _, Some content;
|}.

(** The heap after [getPosts] on the empty heap: the posts in the order
    of the listing, then the array, newest post first. *)
Definition blog_heap : list Obj :=
  [PostObj alpha; PostObj beta; PostObj gamma; ArrayObj [2; 1; 0]%nat].

(** The heap before the sort: the array in the order of the listing. *)
Definition listing_heap : list Obj :=
  [PostObj alpha; PostObj beta; PostObj gamma; ArrayObj [0; 1; 2]%nat].

(** *** An array with a post that has no date *)

Definition undated : Post :=
  {| content := "draft"; data := {| title := Some "Draft"; date := DateUndefined |};
     filePath := "draft.mdx" |}.

Definition draft_heap : list Obj :=
  [PostObj alpha; PostObj undated; PostObj beta; ArrayObj [0; 1; 2]%nat].

(** *** Global data and theme *)

(** A decoder for strings without escapes. *)
Definition plain (s : string) : option string := Some s.

Definition default_theme : TailwindPreset.ColorTheme :=
  {| TailwindPreset.colors := {[ "primary" := "#7D7AFF" ]} |}.

(** A browser in which the theme 'dark' is stored and the root has one
    class. *)
Definition dark_browser : Layout.Browser :=
  {| Layout.localStorage := {[ "theme" := "dark" ]};
     Layout.classList := ["antialiased"];
     Layout.darkQuery_onchange := None |}.

(** *** More data *)

(** A post of the same date as [alpha], and an array with both. *)
Definition delta : Post :=
  {| content := "four"; data := front "Delta" (DateObject (Finite 10)); filePath := "delta.mdx" |}.

Definition ties_heap : list Obj :=
  [PostObj alpha; PostObj gamma; PostObj delta; ArrayObj [0; 1; 2]%nat].

(** The blog without its [.md] post. *)
Definition journal : Platform := {|
  cwd := cwd blog;
  path_join := path_join blog;
  readdirSync := λ dir,
    if decide (dir = "/app/posts") then Some ["alpha.mdx"; "gamma.mdx"; "notes.txt"]
    else None;
  readFileSync := readFileSync blog;
  matter := matter blog;
  Date_parse := Date_parse blog;
  serialize := serialize blog;
|}.

Definition journal_heap : list Obj :=
  [PostObj alpha; PostObj gamma; ArrayObj [1; 0]%nat].

(** A posts directory without any post. *)
Definition bare : Platform := {|
  cwd := cwd blog;
  path_join := path_join blog;
  readdirSync := λ dir, if decide (dir = "/app/posts") then Some ["notes.txt"] else None;
  readFileSync := readFileSync blog;
  matter := matter blog;
  Date_parse := Date_parse blog;
  serialize := serialize blog;
|}.

(** The blog with a draft that has no date, between two dated [.mdx]
    posts of the listing. *)
Definition drafts : Platform := {|
  cwd := cwd blog;
  path_join := path_join blog;
  readdirSync := λ dir,
    if decide (dir = "/app/posts") then Some ["alpha.mdx"; "draft.mdx"; "gamma.mdx"]
    else None;
  readFileSync := λ file,
    if decide (file = "/app/posts/draft.mdx") then Some "D" else readFileSync blog file;
  matter := λ source,
    if decide (source = "D") then Some (content undated, data undated)
    else matter blog source;
  Date_parse := Date_parse blog;
  serialize := serialize blog;
|}.

(** The heap after [getPosts] on the empty heap: the sort leaves the array
    in the order of the listing. *)
Definition drafts_heap : list Obj :=
  [PostObj alpha; PostObj undated; PostObj gamma; ArrayObj [0; 1; 2]%nat].

(** Two themes, two fonts, and an environment that selects the second
    theme and the second font for the headings. *)
Definition night_theme : TailwindPreset.ColorTheme :=
  {| TailwindPreset.colors := {[ "primary" := "#FF8585" ]} |}.

Definition color_themes : gmap string TailwindPreset.ColorTheme :=
  <[ "night" := night_theme ]> {[ "default" := default_theme ]}.

Definition font_themes : gmap string string :=
  <[ "serif" := "ui-serif" ]> {[ "sans-serif" := "ui-sans-serif" ]}.

Definition night_env : gmap string string :=
  <[ "BLOG_FONT_HEADINGS" := "serif" ]> {[ "BLOG_THEME" := "night" ]}.

(** An environment that asks for a heading font that the table does not
    have but [Object.prototype] does. *)
Definition odd_env : gmap string string := {[ "BLOG_FONT_HEADINGS" := "constructor" ]}.

End Demo.

(** * The facts *)

(** ** Strings *)

Module Str.

Lemma app_cons (c : ascii) (s t : string) : String c s +:+ t = String c (s +:+ t).
Proof. reflexivity. Qed.

Lemma app_nil_r (s : string) : s +:+ EmptyString = s.
Proof. induction s as [|c s IH]; [done|]. by rewrite app_cons, IH. Qed.

Lemma length_app (s1 s2 : string) :
  String.length (s1 +:+ s2) = (String.length s1 + String.length s2)%nat.
Proof. induction s1 as [|c s1 IH]; [done|]. rewrite app_cons. cbn. by rewrite IH. Qed.

Lemma length_0 (s : string) : String.length s = 0%nat → s = EmptyString.
Proof. by destruct s. Qed.

End Str.

(** ** utils/mdx-utils.js *)

Module MdxFacts.

Import RegExp MdxUtils MdxSpec.

(** *** The pattern of the extension *)

Lemma matcher_MDX_RE (s : string) (rest : string) :
  matcher MDX_RE s Some = Some rest ↔ (s = ".md" ∨ s = ".mdx") ∧ rest = EmptyString.
Proof.
  destruct s as [|c1 [|c2 [|c3 [|c4 [|c5 s]]]]]; cbn;
    repeat (destruct (decide _) as [<-|?]; cbn);
    (split; [intros [= <-]; by auto | intros [[[=]|[=]] ->]; by subst]).
Qed.

Lemma exec_MDX_RE_Some (s before rest : string) :
  exec MDX_RE s = Some (before, rest) →
  rest = EmptyString ∧ (s = before +:+ ".md" ∨ s = before +:+ ".mdx").
Proof.
  revert before. induction s as [|c s IH]; intros before.
  - cbn. discriminate.
  - cbn [exec].
    destruct (matcher MDX_RE (String c s) Some) as [r|] eqn:Hm.
    + apply matcher_MDX_RE in Hm as [Hs ->]. intros [= <-]. by split.
    + destruct (exec MDX_RE s) as [[b r]|] eqn:He; [|discriminate].
      intros [= <- <-]. destruct (IH b eq_refl) as [-> [->| ->]]; by auto.
Qed.

Lemma exec_MDX_RE_ext (stem ext : string) :
  ext = ".md" ∨ ext = ".mdx" →
  exec MDX_RE (stem +:+ ext) = Some (stem, EmptyString).
Proof.
  intros Hext. induction stem as [|c stem IH].
  - destruct Hext as [-> | ->]; reflexivity.
  - change (String c stem +:+ ext) with (String c (stem +:+ ext)).
    cbn [exec].
    destruct (matcher MDX_RE (String c (stem +:+ ext)) Some) as [r|] eqn:Hm.
    + exfalso. apply matcher_MDX_RE in Hm as [Hs _].
      assert (Hlen : (String.length (String c (stem +:+ ext)) ≤ 4)%nat)
        by (destruct Hs as [-> | ->]; cbn; lia).
      cbn in Hlen. rewrite Str.length_app in Hlen.
      destruct Hext as [-> | ->]; cbn in Hlen; [|lia].
      assert (stem = EmptyString) as -> by (apply Str.length_0; lia).
      destruct Hs as [Hs|Hs]; discriminate Hs.
    + by rewrite IH.
Qed.

Lemma test_MDX_RE (name : string) : test MDX_RE name = true ↔ md_extension name.
Proof.
  unfold test, md_extension. split.
  - destruct (exec MDX_RE name) as [[b r]|] eqn:He; [|discriminate].
    intros _. apply exec_MDX_RE_Some in He as [_ ?]. by exists b.
  - intros [stem [-> | ->]]; by rewrite exec_MDX_RE_ext; auto.
Qed.

Global Instance md_extension_dec (name : string) : Decision (md_extension name).
Proof.
  refine (cast_if (decide (test MDX_RE name = true))); by rewrite <-test_MDX_RE.
Defined.

Lemma replace_MDX_RE (stem ext : string) :
  ext = ".md" ∨ ext = ".mdx" →
  replace (stem +:+ ext) MDX_RE EmptyString = stem.
Proof.
  intros Hext. unfold replace. rewrite exec_MDX_RE_ext by done.
  by rewrite Str.app_nil_r.
Qed.

(** The slug of a [.mdx] file names that file again. *)
Lemma mdx_slug_file_name (stem : string) :
  replace (stem +:+ ".mdx") MDX_RE EmptyString +:+ ".mdx" = stem +:+ ".mdx".
Proof. rewrite replace_MDX_RE; auto. Qed.

(** *** Facts about the sort *)

Section SortFacts.
Context {A : Type} (comparefn : A → A → option Number).

Lemma sort_insert_Permutation (x : A) (l l' : list A) :
  sort_insert comparefn x l = Some l' → l' ≡ₚ x :: l.
Proof.
  revert l'. induction l as [|y l IH]; intros l'; cbn.
  - by intros [= <-].
  - destruct (SortCompare comparefn x y) as [c|]; cbn; [|done].
    destruct (decide (c ≤ 0)); [by intros [= <-]|].
    destruct (sort_insert comparefn x l) as [l''|]; cbn; [|done].
    intros [= <-]. rewrite (IH l'' eq_refl). apply Permutation_swap.
Qed.

Lemma Array_sort_Permutation (l l' : list A) :
  Array_sort comparefn l = Some l' → l' ≡ₚ l.
Proof.
  revert l'. induction l as [|x l IH]; intros l'; cbn.
  - by intros [= <-].
  - destruct (Array_sort comparefn l) as [s|]; cbn; [|done].
    intros ->%sort_insert_Permutation. by rewrite (IH s eq_refl).
Qed.

(** The sort returns whenever the comparator does on the elements. *)
Section Total.
Variable P : A → Prop.
Hypothesis comparefn_total : ∀ x y, P x → P y → is_Some (comparefn x y).

Lemma sort_insert_total (x : A) (l : list A) :
  P x → Forall P l → is_Some (sort_insert comparefn x l).
Proof.
  intros Hx. induction 1 as [|y l Hy Hl IH]; cbn; [done|].
  unfold SortCompare. destruct (comparefn_total x y Hx Hy) as [v ->]. cbn.
  destruct (decide _); [done|]. destruct IH as [l'' ->]. done.
Qed.

Lemma Array_sort_total (l : list A) :
  Forall P l → is_Some (Array_sort comparefn l).
Proof.
  induction 1 as [|x l Hx Hl IH]; cbn; [done|].
  destruct IH as [s Hs]. rewrite Hs. cbn.
  apply sort_insert_total; [done|].
  by rewrite (Array_sort_Permutation _ _ Hs).
Qed.

End Total.

(** When the comparator is the difference of a key, the result is in
    descending order of the key. *)
Section Keyed.
Variables (P : A → Prop) (key : A → Z).
Hypothesis comparefn_key :
  ∀ x y, P x → P y → comparefn x y = Some (Finite (key y - key x)).

Lemma sort_insert_descending (x : A) (l l' : list A) :
  P x → Forall P l → StronglySorted (descending key) l →
  sort_insert comparefn x l = Some l' → StronglySorted (descending key) l'.
Proof.
  intros Hx HP Hs. revert l'.
  induction Hs as [|y l Hs IH Hy]; intros l'; cbn.
  - intros [= <-]. by repeat constructor.
  - apply Forall_cons in HP as [Py HP].
    unfold SortCompare. rewrite (comparefn_key x y Hx Py). cbn.
    destruct (decide (key y - key x ≤ 0)) as [Hle|Hgt].
    + intros [= <-]. constructor; [by constructor|].
      constructor; [unfold descending; lia|].
      eapply Forall_impl; [exact Hy|]. unfold descending. cbn. lia.
    + destruct (sort_insert comparefn x l) as [l''|] eqn:Hi; cbn; [|done].
      intros [= <-]. constructor; [by apply IH|].
      rewrite (sort_insert_Permutation _ _ _ Hi).
      constructor; [unfold descending; lia|done].
Qed.

Lemma Array_sort_descending (l l' : list A) :
  Forall P l → Array_sort comparefn l = Some l' →
  StronglySorted (descending key) l'.
Proof.
  intros HP. revert l'. induction HP as [|x l Hx HP IH]; intros l'; cbn.
  - intros [= <-]. constructor.
  - destruct (Array_sort comparefn l) as [s|] eqn:Hs; cbn; [|done].
    apply sort_insert_descending; [done| |by apply IH].
    by rewrite (Array_sort_Permutation _ _ Hs).
Qed.

End Keyed.
End SortFacts.

Lemma StronglySorted_adjacent {A} (R : relation A) (l : list A) (i : nat) (x y : A) :
  StronglySorted R l → l !! i = Some x → l !! S i = Some y → R x y.
Proof.
  intros Hs. revert i. induction Hs as [|z l Hs IH Hz]; intros i; [done|].
  destruct i as [|i]; cbn.
  - intros [= ->] Hy. rewrite Forall_forall in Hz. apply Hz.
    by eapply list_elem_of_lookup_2.
  - apply IH.
Qed.

(** *** Facts about the heap and [getPosts] *)

(** The posts behind a list of references, along a permutation. *)
Lemma mapM_get_post_Permutation (h : Heap) (l l' : list loc) (ps : list Post) :
  l' ≡ₚ l → mapM (get_post h) l = Some ps →
  ∃ ps', mapM (get_post h) l' = Some ps' ∧ ps' ≡ₚ ps.
Proof.
  intros Hperm. revert ps. induction Hperm as [|x l1 l2 _ IH|x y l1|l1 l2 l3 _ IH1 _ IH2];
    intros ps; rewrite ?mapM_Some.
  - intros ->%Forall2_nil_inv_l. by exists [].
  - intros (p & ps1 & Hp & Hps & ->)%Forall2_cons_inv_l.
    rewrite <-mapM_Some in Hps. destruct (IH _ Hps) as (ps' & Hps' & Hperm').
    exists (p :: ps'). split; [|by rewrite Hperm'].
    apply mapM_Some. constructor; [done|]. by apply mapM_Some.
  - intros (p & ps1 & Hp & (q & ps2 & Hq & Hps & ->)%Forall2_cons_inv_l & ->)%Forall2_cons_inv_l.
    exists (q :: p :: ps2). split; [|apply Permutation_swap].
    apply mapM_Some. by repeat constructor.
  - intros Hps. rewrite <-mapM_Some in Hps.
    destruct (IH2 _ Hps) as (ps2 & Hps2 & Hperm2).
    destruct (IH1 _ Hps2) as (ps1 & Hps1 & Hperm1).
    exists ps1. split; [done|]. by rewrite Hperm1.
Qed.

Lemma mapM_get_post_seq (h tail : Heap) (ps : list Post) :
  mapM (get_post (h ++ (PostObj <$> ps) ++ tail)) (seq (length h) (length ps)) = Some ps.
Proof.
  apply mapM_Some. revert h. induction ps as [|p ps IH]; intros h; cbn; [constructor|].
  constructor.
  - unfold get_post. rewrite lookup_app_r by lia. by rewrite Nat.sub_diag.
  - specialize (IH (h ++ [PostObj p])). rewrite length_app in IH. cbn in IH.
    replace (length h + 1)%nat with (S (length h)) in IH by lia.
    by rewrite <-app_assoc in IH.
Qed.

Lemma get_post_array_tail (h : Heap) (e1 e2 : list loc) (l : loc) :
  get_post (h ++ [ArrayObj e1]) l = get_post (h ++ [ArrayObj e2]) l.
Proof.
  unfold get_post. destruct (decide (l < length h)%nat).
  - by rewrite !lookup_app_l by done.
  - rewrite !lookup_app_r by lia. by destruct (l - length h)%nat as [|[|?]].
Qed.

Lemma get_post_insert_array (h : Heap) (a l : loc) (e1 e2 : list loc) :
  get_array h a = Some e1 →
  get_post (<[a := ArrayObj e2]> h) l = get_post h l.
Proof.
  unfold get_array, get_post. intros Ha. destruct (decide (a = l)) as [<-|Hne].
  - destruct (h !! a) as [[p|e]|] eqn:Hl; try done.
    rewrite list_lookup_insert_eq; [done|]. by eapply lookup_lt_Some.
  - by rewrite list_lookup_insert_ne.
Qed.

Lemma get_array_insert (h : Heap) (a : loc) (e1 e2 : list loc) :
  get_array h a = Some e1 → get_array (<[a := ArrayObj e2]> h) a = Some e2.
Proof.
  unfold get_array. destruct (h !! a) as [[p|e]|] eqn:Hl; try done. intros _.
  rewrite list_lookup_insert_eq; [done|]. by eapply lookup_lt_Some.
Qed.

Lemma get_array_tail (h : Heap) (elems : list loc) :
  get_array (h ++ [ArrayObj elems]) (length h) = Some elems.
Proof. unfold get_array. rewrite lookup_app_r by lia. by rewrite Nat.sub_diag. Qed.

Section GetPosts.
Variable pf : Platform.
Local Abbreviation readPost := (readPost pf).

Lemma readPost_filePath (name : string) (p : Post) :
  readPost name = Some p → filePath p = name.
Proof.
  unfold readPost. destruct (readFileSync _ _) as [src|]; cbn; [|done].
  destruct (matter pf src) as [[c d]|]; cbn; [|done]. by intros [= <-].
Qed.

Lemma mapM_readPost_filePath (paths : list string) (ps : list Post) :
  mapM readPost paths = Some ps → filePath <$> ps = paths.
Proof.
  rewrite mapM_Some. induction 1 as [|name p paths ps Hp _ IH]; [done|].
  cbn. by rewrite (readPost_filePath _ _ Hp), IH.
Qed.

Lemma Array_map_alloc (f : string → M loc) (paths : list string) (h : Heap) :
  (∀ name h, f name h = p ← readPost name; Some (length h, h ++ [PostObj p])) →
  Array_map f paths h
  = ps ← mapM readPost paths;
    Some (seq (length h) (length ps), h ++ (PostObj <$> ps)).
Proof.
  intros Hf. revert h. induction paths as [|name paths IH]; intros h.
  - cbn. by rewrite app_nil_r.
  - cbn [Array_map]. unfold bind at 1. rewrite Hf.
    change (mapM readPost (name :: paths))
      with (y ← readPost name; k ← mapM readPost paths; Some (y :: k)).
    destruct (readPost name) as [p|]; cbn; [|done].
    unfold bind at 1. rewrite IH, length_app. cbn.
    destruct (mapM readPost paths) as [ps|]; cbn; [|done].
    unfold ret. rewrite <-app_assoc. cbn.
    by replace (length h + 1)%nat with (S (length h)) by lia.
Qed.

Lemma Array_map_readPost (paths : list string) (h : Heap) :
  Array_map (λ filePath,
      let* source := lift (readFileSync pf (path_join pf (POSTS_PATH pf) filePath)) in
      let* '(content, data) := lift (matter pf source) in
      alloc (PostObj {| content := content; data := data; filePath := filePath |}))
    paths h
  = ps ← mapM readPost paths;
    Some (seq (length h) (length ps), h ++ (PostObj <$> ps)).
Proof.
  apply Array_map_alloc. intros name h'. unfold bind, lift, readPost.
  destruct (readFileSync _ _) as [src|]; cbn; [|done].
  destruct (matter pf src) as [[c d]|]; by cbn.
Qed.

(** [getPosts] reads the posts in the order of the listing, allocates
    them after the heap it starts from, then the array, which it
    sorts. *)
Lemma getPosts_unfold (h : Heap) :
  getPosts pf h =
    paths ← getPostFilePaths pf;
    ps ← mapM readPost paths;
    let elems := seq (length h) (length ps) in
    sorted ← Array_sort (compareDates pf (h ++ (PostObj <$> ps) ++ [ArrayObj elems])) elems;
    Some ((length h + length ps)%nat, h ++ (PostObj <$> ps) ++ [ArrayObj sorted]).
Proof.
  unfold getPosts. unfold bind at 1, lift at 1.
  destruct (getPostFilePaths pf) as [paths|]; cbn; [|done].
  unfold bind at 1. rewrite Array_map_readPost.
  destruct (mapM readPost paths) as [ps|]; cbn; [|done].
  unfold bind, alloc, sortPostsByDate, ret.
  rewrite length_app, length_fmap.
  assert (Ha : get_array ((h ++ (PostObj <$> ps)) ++ [ArrayObj (seq (length h) (length ps))])
                 (length h + length ps)%nat
               = Some (seq (length h) (length ps))).
  { unfold get_array. rewrite lookup_app_r by (rewrite length_app, length_fmap; lia).
    rewrite length_app, length_fmap. by rewrite Nat.sub_diag. }
  rewrite Ha. cbn. rewrite <-!app_assoc.
  destruct (Array_sort _ _) as [sorted|]; cbn; [|done].
  do 2 f_equal. rewrite !app_assoc.
  rewrite insert_app_r_alt by (rewrite length_app, length_fmap; lia).
  rewrite length_app, length_fmap. by rewrite Nat.sub_diag.
Qed.

End GetPosts.

(** *** Date order *)

Section DateOrder.
Variable pf : Platform.
Local Abbreviation valid_date := (valid_date pf).
Local Abbreviation date_ge := (date_ge pf).
Local Abbreviation date_descending := (date_descending pf).
Local Abbreviation date_key := (date_key pf).

Lemma compareDates_total (h : Heap) (a b : loc) :
  is_Some (get_post h a) → is_Some (get_post h b) →
  is_Some (compareDates pf h a b).
Proof. intros [pa Ha] [pb Hb]. unfold compareDates. rewrite Ha, Hb. by cbn. Qed.

Lemma compareDates_key (h : Heap) (a b : loc) :
  (∃ p, get_post h a = Some p ∧ valid_date p) →
  (∃ p, get_post h b = Some p ∧ valid_date p) →
  compareDates pf h a b = Some (Finite (date_key h b - date_key h a)).
Proof.
  intros (pa & Ha & Va) (pb & Hb & Vb). unfold compareDates, date_key, valid_date in *.
  rewrite Ha, Hb. cbn.
  by destruct (new_Date pf (date (data pa))), (new_Date pf (date (data pb))).
Qed.

Lemma Array_sort_compareDates (h : Heap) (elems : list loc) (ps : list Post) :
  mapM (get_post h) elems = Some ps →
  ∃ sorted,
    Array_sort (compareDates pf h) elems = Some sorted ∧
    sorted ≡ₚ elems ∧
    (Forall valid_date ps → StronglySorted (descending (date_key h)) sorted).
Proof.
  rewrite mapM_Some. intros Hps.
  assert (Hall : Forall (λ l, is_Some (get_post h l)) elems).
  { induction Hps; constructor; eauto. }
  destruct (Array_sort_total (compareDates pf h) _ (compareDates_total h) elems Hall)
    as [sorted Hsorted].
  exists sorted. split; [done|]. split; [by eapply Array_sort_Permutation|].
  intros Hvalid.
  eapply (Array_sort_descending (compareDates pf h) _ _ (compareDates_key h));
    [|exact Hsorted].
  clear Hsorted Hall. induction Hps as [|l p elems ps Hl _ IH]; [constructor|].
  apply Forall_cons in Hvalid as [Hv Hvalid]. constructor; eauto.
Qed.

(** Descending keys of references are descending dates of the posts
    they refer to, in any heap that holds the same posts. *)
Lemma descending_posts (h h' : Heap) (sorted : list loc) (sps : list Post) :
  mapM (get_post h') sorted = Some sps →
  (∀ l, l ∈ sorted → get_post h l = get_post h' l) →
  Forall valid_date sps →
  StronglySorted (descending (date_key h)) sorted →
  date_descending sps.
Proof.
  rewrite mapM_Some. intros Hps Hsame Hvalid Hs i p q Hp Hq.
  destruct (Forall2_lookup_r _ _ _ _ _ Hps Hp) as (lp & Hlp & Hgp).
  destruct (Forall2_lookup_r _ _ _ _ _ Hps Hq) as (lq & Hlq & Hgq).
  pose proof (StronglySorted_adjacent _ _ _ _ _ Hs Hlp Hlq) as Hd.
  unfold descending, date_key in Hd.
  rewrite (Hsame lp), (Hsame lq), Hgp, Hgq in Hd
    by (by eapply list_elem_of_lookup_2).
  rewrite Forall_forall in Hvalid.
  pose proof (Hvalid p (list_elem_of_lookup_2 _ _ _ Hp)) as Vp.
  pose proof (Hvalid q (list_elem_of_lookup_2 _ _ _ Hq)) as Vq.
  unfold date_ge, valid_date in *.
  by destruct (new_Date pf (date (data p))), (new_Date pf (date (data q))).
Qed.

End DateOrder.

(** *** The directory scan *)

(** C6. When the posts directory can be listed, [getPostFilePaths] returns
    the entries of the listing whose names end in [.md] or [.mdx], each as
    often as and in the order in which the listing has it, and no other
    entry. *)
Theorem getPostFilePaths_md_entries (pf : Platform) (entries : list string) :
  readdirSync pf (POSTS_PATH pf) = Some entries →
  ∃ paths,
    getPostFilePaths pf = Some paths ∧
    paths = filter md_extension entries ∧
    paths `sublist_of` entries ∧
    ∀ name, name ∈ paths ↔ name ∈ entries ∧ md_extension name.
Proof.
  intros Hdir. unfold getPostFilePaths. rewrite Hdir. cbn.
  assert (Heq : filter (λ path, test MDX_RE path = true) entries
                = filter md_extension entries)
    by (apply list_filter_iff; intros name; apply test_MDX_RE).
  eexists. split; [done|]. rewrite Heq. split; [done|].
  split; [apply sublist_filter|].
  intros name. rewrite list_elem_of_filter. tauto.
Qed.

(** *** The sort *)

(** C9, amended. [sortPostsByDate] returns the reference it was given and
    changes no other cell of the heap; afterwards the array holds a
    permutation of the posts it held, and when the date of every post is
    valid that permutation is in descending order of date. *)
Theorem sortPostsByDate_in_place (pf : Platform) (h : Heap) (a : loc) (ps : list Post) :
  array_posts h a = Some ps →
  ∃ h' ps',
    sortPostsByDate pf a h = Some (a, h') ∧
    length h' = length h ∧
    (∀ l, l ≠ a → h' !! l = h !! l) ∧
    array_posts h' a = Some ps' ∧
    ps' ≡ₚ ps ∧
    (Forall (valid_date pf) ps → date_descending pf ps').
Proof.
  unfold array_posts, sortPostsByDate.
  destruct (get_array h a) as [elems|] eqn:Ha; cbn; [|done]. intros Hps.
  destruct (Array_sort_compareDates pf h elems ps Hps) as (sorted & Hs & Hperm & Hdesc).
  destruct (mapM_get_post_Permutation h elems sorted ps Hperm Hps) as (ps' & Hps' & Hperm').
  assert (Hps'' : mapM (get_post (<[a:=ArrayObj sorted]> h)) sorted = Some ps').
  { rewrite <-Hps'. apply mapM_ext. intros l. by eapply get_post_insert_array. }
  exists (<[a:=ArrayObj sorted]> h), ps'. rewrite Hs. cbn.
  split; [done|]. split; [apply length_insert|].
  split; [intros l Hne; by apply list_lookup_insert_ne|].
  rewrite (get_array_insert _ _ _ _ Ha). cbn.
  split; [done|]. split; [done|]. intros Hvalid.
  eapply (descending_posts pf h); [exact Hps''| | |by apply Hdesc].
  - intros l _. symmetry. by eapply get_post_insert_array.
  - by rewrite Hperm'.
Qed.

(** C1. When the directory can be listed, every post file can be read and
    parsed, and the date of every post is valid, [getPosts] returns an
    array that holds exactly these posts, each post's date being at least
    the date of the post that follows it. *)
Theorem getPosts_sorted (pf : Platform) (h : Heap) (paths : list string) (ps : list Post) :
  getPostFilePaths pf = Some paths →
  mapM (readPost pf) paths = Some ps →
  Forall (valid_date pf) ps →
  ∃ a h' sps,
    getPosts pf h = Some (a, h') ∧
    array_posts h' a = Some sps ∧
    sps ≡ₚ ps ∧
    date_descending pf sps.
Proof.
  intros Hpaths Hread Hvalid. rewrite getPosts_unfold, Hpaths.
  cbn [mbind option_bind]. rewrite Hread. cbn [mbind option_bind].
  set (elems := seq (length h) (length ps)).
  set (h1 := h ++ (PostObj <$> ps) ++ [ArrayObj elems]).
  pose proof (mapM_get_post_seq h [ArrayObj elems] ps) as Hps. fold elems h1 in Hps.
  destruct (Array_sort_compareDates pf h1 elems ps Hps) as (sorted & Hs & Hperm & Hdesc).
  rewrite Hs. cbn [mbind option_bind].
  pose proof (mapM_get_post_seq h [ArrayObj sorted] ps) as Hps2. fold elems in Hps2.
  destruct (mapM_get_post_Permutation _ elems sorted ps Hperm Hps2) as (sps & Hsps & Hperm').
  eexists _, _, sps. split; [done|].
  split.
  { unfold array_posts. rewrite !app_assoc.
    pose proof (get_array_tail (h ++ (PostObj <$> ps)) sorted) as Harr.
    rewrite length_app, length_fmap in Harr. rewrite Harr. cbn.
    by rewrite <-!app_assoc. }
  split; [done|].
  eapply (descending_posts pf h1); [exact Hsps| | |by apply Hdesc].
  - intros l _. unfold h1. rewrite !app_assoc. apply get_post_array_tail.
  - by rewrite Hperm'.
Qed.

(** *** Navigation *)

(** [find] and [indexOf] together give the first index whose post
    satisfies the predicate, or [-1]. *)
Lemma Array_find_indexOf (h : Heap) (pred : Post → bool) (elems : list loc)
    (ps : list Post) (k : Z) :
  mapM (get_post h) elems = Some ps →
  ∃ r, Array_find h pred elems = Some r ∧
    ((r = None ∧ Forall (λ p, pred p = false) ps ∧ indexOf_from k elems r = -1) ∨
     (∃ (i : nat) l p,
        r = Some l ∧ elems !! i = Some l ∧ ps !! i = Some p ∧ pred p = true ∧
        (∀ (j : nat) q, (j < i)%nat → ps !! j = Some q → pred q = false) ∧
        indexOf_from k elems r = k + Z.of_nat i)).
Proof.
  rewrite mapM_Some. intros Hps. revert k.
  induction Hps as [|l p elems ps Hl Hps IH]; intros k.
  - exists None. split; [done|]. left. by repeat split.
  - cbn [Array_find]. rewrite Hl. cbn. destruct (pred p) eqn:Hp.
    + exists (Some l). split; [done|]. right. exists 0%nat, l, p.
      repeat split; try done; [lia|]. cbn. rewrite decide_True by done. lia.
    + destruct (IH (k + 1)) as (r & Hr & Hcase). exists r. split; [done|].
      destruct Hcase as [(-> & Hall & Hidx)|(i & l' & p' & -> & Hi & Hpi & Hp' & Hfirst & Hidx)].
      * left. repeat split; [by constructor|]. cbn. by rewrite decide_False.
      * right. exists (S i), l', p'. repeat split; try done.
        -- intros [|j] q Hj; cbn; [by intros [= <-]|]. apply Hfirst. lia.
        -- cbn. rewrite decide_False; [rewrite Hidx; lia|].
           intros [= ->]. destruct (Forall2_lookup_l _ _ _ _ _ Hps Hi) as (p'' & Hp'' & Hl').
           congruence.
Qed.

Section Navigation.
Variable pf : Platform.
Local Abbreviation adjacentPostBySlug := (adjacentPostBySlug pf).
Local Abbreviation distinct_entries := (distinct_entries pf).

Lemma getNextPostBySlug_offset (slug : string) :
  getNextPostBySlug pf slug = adjacentPostBySlug (-1) slug.
Proof. reflexivity. Qed.

Lemma getPreviousPostBySlug_offset (slug : string) :
  getPreviousPostBySlug pf slug = adjacentPostBySlug 1 slug.
Proof. reflexivity. Qed.

Lemma Array_get_post_at (h : Heap) (elems : list loc) (ps : list Post) (i : Z) :
  mapM (get_post h) elems = Some ps →
  match Array_get elems i with
  | Some l => ∃ p, get_post h l = Some p ∧ post_at ps i = Some p
  | None => post_at ps i = None
  end.
Proof.
  rewrite mapM_Some. intros Hps. unfold Array_get, post_at.
  destruct (decide (0 ≤ i)) as [Hi|Hi]; [|done].
  destruct (elems !! Z.to_nat i) as [l|] eqn:Hl.
  - destruct (Forall2_lookup_l _ _ _ _ _ Hps Hl) as (p & Hp & Hg). eauto.
  - apply lookup_ge_None. apply lookup_ge_None in Hl.
    by rewrite <-(Forall2_length _ _ _ Hps).
Qed.

(** The result of a navigation function in terms of the posts that
    [getPosts] returns: the post at the given offset from the first
    post of the file [slug.mdx], and from [-1] when there is none. *)
Lemma adjacentPostBySlug_spec (offset : Z) (slug : string) (h h' : Heap)
    (a : loc) (ps : list Post) :
  getPosts pf h = Some (a, h') →
  array_posts h' a = Some ps →
  ∃ idx : Z,
    adjacentPostBySlug offset slug h
      = Some (link_of <$> post_at ps (idx + offset), h') ∧
    ((idx = -1 ∧ Forall (λ p, filePath p ≠ slug +:+ ".mdx") ps) ∨
     (∃ (i : nat) p, idx = Z.of_nat i ∧ ps !! i = Some p ∧ filePath p = slug +:+ ".mdx" ∧
        ∀ (j : nat) q, (j < i)%nat → ps !! j = Some q → filePath q ≠ slug +:+ ".mdx")).
Proof.
  intros Hget. unfold array_posts.
  destruct (get_array h' a) as [elems|] eqn:Ha; cbn; [|done]. intros Hps.
  destruct (Array_find_indexOf h'
              (λ post, bool_decide (filePath post = slug +:+ ".mdx")) elems ps 0 Hps)
    as (r & Hfind & Hcase).
  exists (Array_indexOf elems r). split.
  - unfold adjacentPostBySlug. unfold bind at 1. rewrite Hget.
    unfold bind at 1, read at 1, lift at 1. rewrite Ha.
    unfold bind at 1, read at 1, lift at 1. rewrite Hfind.
    pose proof (Array_get_post_at h' elems ps (Array_indexOf elems r + offset) Hps) as Hat.
    destruct (Array_get elems (Array_indexOf elems r + offset)) as [l|].
    + destruct Hat as (p & Hp & ->). unfold bind, read, lift, ret. by rewrite Hp.
    + by rewrite Hat.
  - unfold Array_indexOf.
    destruct Hcase as [(-> & Hall & Hidx)|(i & l & p & -> & Hi & Hpi & Hp & Hfirst & Hidx)].
    + left. split; [done|]. eapply Forall_impl; [exact Hall|].
      intros p. cbn. by intros ?%bool_decide_eq_false_1.
    + right. exists i, p. split; [lia|]. split; [done|].
      split; [by apply bool_decide_eq_true_1 in Hp|].
      intros j q Hj Hq. by eapply bool_decide_eq_false_1, (Hfirst j).
Qed.

(** What [getPosts] returned was read from the files of the listing. *)
Lemma getPosts_inv (h h' : Heap) (a : loc) (ps : list Post) :
  getPosts pf h = Some (a, h') →
  array_posts h' a = Some ps →
  ∃ paths ps0,
    getPostFilePaths pf = Some paths ∧
    mapM (readPost pf) paths = Some ps0 ∧
    ps ≡ₚ ps0.
Proof.
  rewrite getPosts_unfold.
  destruct (getPostFilePaths pf) as [paths|];
    cbn [mbind option_bind]; [|intros [=]].
  destruct (mapM (readPost pf) paths) as [ps0|] eqn:Hread;
    cbn [mbind option_bind]; [|intros [=]].
  destruct (Array_sort _ _) as [sorted|] eqn:Hs;
    cbn [mbind option_bind]; [|intros [=]].
  intros [= <- <-]. unfold array_posts. rewrite !app_assoc.
  pose proof (get_array_tail (h ++ (PostObj <$> ps0)) sorted) as Harr.
  rewrite length_app, length_fmap in Harr. rewrite Harr. cbn [mbind option_bind].
  rewrite <-!app_assoc. intros Hps.
  exists paths, ps0. split; [done|]. split; [done|].
  apply Array_sort_Permutation in Hs.
  destruct (mapM_get_post_Permutation _ _ _ _ Hs (mapM_get_post_seq h [ArrayObj sorted] ps0))
    as (ps' & Hps' & Hperm).
  by simplify_eq.
Qed.

Lemma getPosts_filePaths (h h' : Heap) (a : loc) (ps : list Post) :
  getPosts pf h = Some (a, h') →
  array_posts h' a = Some ps →
  Forall (λ p, md_extension (filePath p)) ps ∧
  (distinct_entries → NoDup (filePath <$> ps)).
Proof.
  intros Hget Hps. destruct (getPosts_inv _ _ _ _ Hget Hps) as (paths & ps0 & Hpaths & Hread & Hperm).
  apply mapM_readPost_filePath in Hread.
  assert (Hfp : filePath <$> ps ≡ₚ paths) by (by rewrite Hperm, Hread).
  unfold getPostFilePaths in Hpaths.
  destruct (readdirSync pf (POSTS_PATH pf)) as [entries|] eqn:Hdir; [|done].
  cbn in Hpaths. injection Hpaths as <-. split.
  - apply Forall_forall. intros p Hp. apply test_MDX_RE.
    assert (Hin : filePath p ∈ filePath <$> ps) by (by apply list_elem_of_fmap_2).
    rewrite Hfp in Hin. by apply list_elem_of_filter in Hin as [? _].
  - intros Hdist. rewrite Hfp. apply NoDup_filter. by apply Hdist.
Qed.

End Navigation.

Lemma link_of_stem (q : Post) :
  md_extension (filePath q) →
  ∃ stem,
    (filePath q = stem +:+ ".md" ∨ filePath q = stem +:+ ".mdx") ∧
    link_of q = {| Link.title := title (data q); Link.slug := stem |}.
Proof.
  intros [stem Hstem]. exists stem. split; [done|]. unfold link_of. f_equal.
  destruct Hstem as [-> | ->]; apply replace_MDX_RE; auto.
Qed.

(** With distinct directory entries, the index of the post of a file is
    the index the navigation functions compute. *)
Lemma adjacentPostBySlug_at (pf : Platform) (offset : Z) (slug : string)
    (h h' : Heap) (a : loc) (ps : list Post) (i : nat) (p : Post) :
  distinct_entries pf →
  getPosts pf h = Some (a, h') →
  array_posts h' a = Some ps →
  ps !! i = Some p →
  filePath p = slug +:+ ".mdx" →
  adjacentPostBySlug pf offset slug h
    = Some (link_of <$> post_at ps (Z.of_nat i + offset), h').
Proof.
  intros Hdist Hget Hps Hi Hp.
  destruct (adjacentPostBySlug_spec pf offset slug h h' a ps Hget Hps)
    as (idx & Hrun & [[_ Hnone]|(i0 & p0 & -> & Hi0 & Hp0 & _)]).
  - rewrite Forall_forall in Hnone. destruct (Hnone p); [|done].
    by eapply list_elem_of_lookup_2.
  - destruct (getPosts_filePaths pf h h' a ps Hget Hps) as [_ Hnodup].
    assert (i0 = i) as ->; [|done].
    eapply NoDup_lookup; [by apply Hnodup| |].
    + by rewrite list_lookup_fmap, Hi0; cbn; rewrite Hp0.
    + by rewrite list_lookup_fmap, Hi; cbn; rewrite Hp.
Qed.

(** *** Date order of what [getPosts] returns *)

Lemma date_ge_refl (pf : Platform) (p : Post) : valid_date pf p → date_ge pf p p.
Proof.
  unfold valid_date, date_ge. by destruct (new_Date pf (date (data p))).
Qed.

Lemma date_ge_trans (pf : Platform) (p q r : Post) :
  date_ge pf p q → date_ge pf q r → date_ge pf p r.
Proof.
  unfold date_ge.
  destruct (new_Date pf (date (data p))), (new_Date pf (date (data q))),
    (new_Date pf (date (data r))); try done. lia.
Qed.

(** In a descending array with valid dates, a post is at least as new as
    every post behind it. *)
Lemma date_descending_le (pf : Platform) (ps : list Post) (j k : nat) (p q : Post) :
  Forall (valid_date pf) ps →
  date_descending pf ps →
  (j ≤ k)%nat → ps !! j = Some p → ps !! k = Some q → date_ge pf p q.
Proof.
  intros Hvalid Hdesc Hjk Hp. replace k with (j + (k - j))%nat by lia.
  generalize (k - j)%nat as d. clear k Hjk. intros d. revert q.
  induction d as [|d IH]; intros q Hq.
  - rewrite Nat.add_0_r in Hq. assert (q = p) as -> by congruence.
    apply date_ge_refl. rewrite Forall_forall in Hvalid. apply Hvalid.
    by eapply list_elem_of_lookup_2.
  - replace (j + S d)%nat with (S (j + d)) in Hq by lia.
    destruct (ps !! (j + d)%nat) as [q'|] eqn:Hq'.
    + eapply date_ge_trans; [by apply IH|]. by apply (Hdesc (j + d)%nat).
    + apply lookup_ge_None in Hq'. apply lookup_lt_Some in Hq. lia.
Qed.

(** With valid dates, the array that [getPosts] returns is in descending
    order of date. *)
Lemma getPosts_descending (pf : Platform) (h h' : Heap) (a : loc) (ps : list Post) :
  getPosts pf h = Some (a, h') →
  array_posts h' a = Some ps →
  Forall (valid_date pf) ps →
  date_descending pf ps.
Proof.
  rewrite getPosts_unfold.
  destruct (getPostFilePaths pf) as [paths|];
    cbn [mbind option_bind]; [|intros [=]].
  destruct (mapM (readPost pf) paths) as [ps0|] eqn:Hread;
    cbn [mbind option_bind]; [|intros [=]].
  set (elems := seq (length h) (length ps0)).
  set (h1 := h ++ (PostObj <$> ps0) ++ [ArrayObj elems]).
  pose proof (mapM_get_post_seq h [ArrayObj elems] ps0) as Hps0. fold elems h1 in Hps0.
  destruct (Array_sort_compareDates pf h1 elems ps0 Hps0) as (sorted & Hs & Hperm & Hdesc).
  rewrite Hs. cbn [mbind option_bind]. intros [= <- <-].
  unfold array_posts. rewrite !app_assoc.
  pose proof (get_array_tail (h ++ (PostObj <$> ps0)) sorted) as Harr.
  rewrite length_app, length_fmap in Harr. rewrite Harr. cbn [mbind option_bind].
  rewrite <-!app_assoc. intros Hps Hvalid.
  destruct (mapM_get_post_Permutation _ _ _ _ Hperm
              (mapM_get_post_seq h [ArrayObj sorted] ps0)) as (ps' & Hps' & Hperm').
  assert (ps' = ps) as -> by congruence.
  eapply (descending_posts pf h1); [exact Hps| |done|].
  - intros l _. unfold h1. rewrite !app_assoc. apply get_post_array_tail.
  - apply Hdesc. by rewrite <-Hperm'.
Qed.

Lemma getPosts_first_newest (pf : Platform) (h h' : Heap) (a : loc)
    (first : Post) (rest : list Post) :
  getPosts pf h = Some (a, h') →
  array_posts h' a = Some (first :: rest) →
  Forall (valid_date pf) (first :: rest) →
  newest pf first (first :: rest).
Proof.
  intros Hget Hps Hvalid o [k Hk]%list_elem_of_lookup.
  eapply (date_descending_le pf (first :: rest) 0 k); [done| |lia|done|done].
  by eapply getPosts_descending.
Qed.

Lemma getPosts_neighbours (pf : Platform) (h h' : Heap) (a : loc) (ps : list Post)
    (j : nat) (q p : Post) :
  getPosts pf h = Some (a, h') →
  array_posts h' a = Some ps →
  Forall (valid_date pf) ps →
  ps !! j = Some q → ps !! S j = Some p →
  date_neighbours pf q p ps.
Proof.
  intros Hget Hps Hvalid Hq Hp.
  pose proof (getPosts_descending pf h h' a ps Hget Hps Hvalid) as Hdesc.
  split; [by apply (Hdesc j)|].
  intros o [k Hk]%list_elem_of_lookup. destruct (decide (k ≤ j)%nat).
  - left. by eapply (date_descending_le pf ps k j).
  - right. eapply (date_descending_le pf ps (S j) k); [done|done|lia|done|done].
Qed.

(** C2, amended. Let the directory entries be distinct and [p], at index
    [i] of the array that [getPosts] returns, be the post of the file
    [slug.mdx].  Then [getNextPostBySlug slug] returns null exactly when
    [i] is 0, and otherwise the title and the slug (the file name without
    its extension) of the post at index [i - 1].  When the date of every
    post is valid, null is returned only for a newest post, and the post
    that is returned is the neighbour of [p] in date on the newer side: it
    is not older than [p] and no post has a date strictly between
    theirs. *)
Theorem getNextPostBySlug_newer (pf : Platform) (slug : string)
    (h h' : Heap) (a : loc) (ps : list Post) (i : nat) (p : Post) :
  distinct_entries pf →
  getPosts pf h = Some (a, h') →
  array_posts h' a = Some ps →
  ps !! i = Some p →
  filePath p = slug +:+ ".mdx" →
  ∃ r,
    getNextPostBySlug pf slug h = Some (r, h') ∧
    (r = None ↔ i = 0%nat) ∧
    (∀ j, i = S j →
       ∃ q stem,
         ps !! j = Some q ∧
         (filePath q = stem +:+ ".md" ∨ filePath q = stem +:+ ".mdx") ∧
         r = Some {| Link.title := title (data q); Link.slug := stem |}) ∧
    (Forall (valid_date pf) ps →
       (r = None → newest pf p ps) ∧
       (∀ j q, i = S j → ps !! j = Some q → date_neighbours pf q p ps)).
Proof.
  intros Hdist Hget Hps Hi Hp. rewrite getNextPostBySlug_offset.
  rewrite (adjacentPostBySlug_at pf (-1) slug h h' a ps i p) by done.
  eexists. split; [done|]. unfold post_at.
  assert (Hdates : ∀ r : option Link.t, (r = None ↔ i = 0%nat) →
            Forall (valid_date pf) ps →
            (r = None → newest pf p ps) ∧
            (∀ j q, i = S j → ps !! j = Some q → date_neighbours pf q p ps)).
  { intros r Hr Hvalid. split.
    - intros ->%Hr. destruct ps as [|first rest]; [done|].
      injection Hi as ->. by eapply getPosts_first_newest.
    - intros j q -> Hq. by eapply getPosts_neighbours. }
  destruct i as [|j].
  - rewrite decide_False by lia. split; [done|]. split; [intros j [=]|].
    by apply Hdates.
  - rewrite decide_True by lia. replace (Z.to_nat (Z.of_nat (S j) + -1)) with j by lia.
    destruct (ps !! j) as [q|] eqn:Hq.
    + cbn. split; [done|]. split; [|by apply Hdates].
      intros ? [= <-].
      destruct (getPosts_filePaths pf h h' a ps Hget Hps) as [Hext _].
      rewrite Forall_forall in Hext.
      destruct (link_of_stem q) as (stem & Hstem & ->).
      { apply Hext. by eapply list_elem_of_lookup_2. }
      by exists q, stem.
    + apply lookup_ge_None in Hq. apply lookup_lt_Some in Hi. lia.
Qed.

(** C3, amended. Let the directory entries be distinct and [p], at index
    [i] of the array that [getPosts] returns, be the post of the file
    [slug.mdx].  Then [getPreviousPostBySlug slug] returns null exactly
    when [i] is the last index, and otherwise the title and the slug of
    the post at index [i + 1].  When the date of every post is valid, null
    is returned only for an oldest post, and the post that is returned is
    the neighbour of [p] in date on the older side: it is not newer than
    [p] and no post has a date strictly between theirs. *)
Theorem getPreviousPostBySlug_older (pf : Platform) (slug : string)
    (h h' : Heap) (a : loc) (ps : list Post) (i : nat) (p : Post) :
  distinct_entries pf →
  getPosts pf h = Some (a, h') →
  array_posts h' a = Some ps →
  ps !! i = Some p →
  filePath p = slug +:+ ".mdx" →
  ∃ r,
    getPreviousPostBySlug pf slug h = Some (r, h') ∧
    (r = None ↔ length ps = S i) ∧
    (∀ q, ps !! S i = Some q →
       ∃ stem,
         (filePath q = stem +:+ ".md" ∨ filePath q = stem +:+ ".mdx") ∧
         r = Some {| Link.title := title (data q); Link.slug := stem |}) ∧
    (Forall (valid_date pf) ps →
       (r = None → oldest pf p ps) ∧
       (∀ q, ps !! S i = Some q → date_neighbours pf p q ps)).
Proof.
  intros Hdist Hget Hps Hi Hp. rewrite getPreviousPostBySlug_offset.
  rewrite (adjacentPostBySlug_at pf 1 slug h h' a ps i p) by done.
  eexists. split; [done|]. unfold post_at.
  assert (Hdates : ∀ r : option Link.t, (r = None ↔ length ps = S i) →
            Forall (valid_date pf) ps →
            (r = None → oldest pf p ps) ∧
            (∀ q, ps !! S i = Some q → date_neighbours pf p q ps)).
  { intros r Hr Hvalid. split.
    - intros Hlen%Hr o [k Hk]%list_elem_of_lookup.
      eapply (date_descending_le pf ps k i); [done| | |done|done].
      + by eapply getPosts_descending.
      + apply lookup_lt_Some in Hk. lia.
    - intros q Hq. by eapply getPosts_neighbours. }
  rewrite decide_True by lia. replace (Z.to_nat (Z.of_nat i + 1)) with (S i) by lia.
  destruct (ps !! S i) as [q|] eqn:Hq.
  - cbn. assert (Hnull : (Some (link_of q) = None) ↔ length ps = S i).
    { split; [done|]. intros Hlen. apply lookup_lt_Some in Hq. lia. }
    split; [done|]. split; [|by apply Hdates].
    intros ? [= <-].
    destruct (getPosts_filePaths pf h h' a ps Hget Hps) as [Hext _].
    rewrite Forall_forall in Hext.
    destruct (link_of_stem q) as (stem & Hstem & ->).
    { apply Hext. by eapply list_elem_of_lookup_2. }
    by exists stem.
  - cbn. assert (Hnull : (@None Link.t = None) ↔ length ps = S i).
    { split; [|done]. intros _.
      apply lookup_ge_None in Hq. apply lookup_lt_Some in Hi. lia. }
    split; [done|]. split; [done|]. by apply Hdates.
Qed.

(** C8, amended. When no post that [getPosts] returns is the file
    [slug.mdx], [getNextPostBySlug slug] returns null, and
    [getPreviousPostBySlug slug] returns the title and the slug of the
    first post of the array when there is one; when the date of every post
    is valid, that post is a newest one. *)
Theorem no_current_post (pf : Platform) (slug : string)
    (h h' : Heap) (a : loc) (ps : list Post) :
  getPosts pf h = Some (a, h') →
  array_posts h' a = Some ps →
  Forall (λ p, filePath p ≠ slug +:+ ".mdx") ps →
  getNextPostBySlug pf slug h = Some (None, h') ∧
  (∀ first rest, ps = first :: rest →
     (∃ stem,
        (filePath first = stem +:+ ".md" ∨ filePath first = stem +:+ ".mdx") ∧
        getPreviousPostBySlug pf slug h
          = Some (Some {| Link.title := title (data first); Link.slug := stem |}, h')) ∧
     (Forall (valid_date pf) ps → newest pf first ps)).
Proof.
  intros Hget Hps Hnone.
  rewrite getNextPostBySlug_offset, getPreviousPostBySlug_offset.
  assert (Hidx : ∀ offset, adjacentPostBySlug pf offset slug h
                   = Some (link_of <$> post_at ps (-1 + offset), h')).
  { intros offset.
    destruct (adjacentPostBySlug_spec pf offset slug h h' a ps Hget Hps)
      as (idx & Hrun & [[-> _]|(i0 & p0 & -> & Hi0 & Hp0 & _)]); [done|].
    rewrite Forall_forall in Hnone. destruct (Hnone p0); [|done].
    by eapply list_elem_of_lookup_2. }
  rewrite !Hidx. split; [done|]. intros first rest ->.
  split; [|intros Hvalid; by eapply getPosts_first_newest].
  change (post_at (first :: rest) (-1 + 1)) with (Some first).
  destruct (getPosts_filePaths pf h h' a _ Hget Hps) as [Hext _].
  apply Forall_cons in Hext as [Hext _].
  destruct (link_of_stem first Hext) as (stem & Hstem & Hlink).
  exists stem. split; [done|]. by rewrite <-Hlink.
Qed.

(** *** Further facts about [getPosts] *)


(** The shape of the heap that [getPosts] returns. *)
Lemma getPosts_shape (pf : Platform) (h h' : Heap) (a : loc) :
  getPosts pf h = Some (a, h') →
  ∃ paths ps sorted,
    getPostFilePaths pf = Some paths ∧
    mapM (readPost pf) paths = Some ps ∧
    sorted ≡ₚ seq (length h) (length ps) ∧
    a = (length h + length ps)%nat ∧
    h' = h ++ (PostObj <$> ps) ++ [ArrayObj sorted].
Proof.
  rewrite getPosts_unfold.
  destruct (getPostFilePaths pf) as [paths|];
    cbn [mbind option_bind]; [|intros [=]].
  destruct (mapM (readPost pf) paths) as [ps|] eqn:Hread;
    cbn [mbind option_bind]; [|intros [=]].
  destruct (Array_sort _ _) as [sorted|] eqn:Hs;
    cbn [mbind option_bind]; [|intros [=]].
  intros [= <- <-]. exists paths, ps, sorted. repeat split; try done.
  by eapply Array_sort_Permutation.
Qed.

Lemma array_posts_shape (h : Heap) (ps : list Post) (sorted : list loc) :
  sorted ≡ₚ seq (length h) (length ps) →
  ∃ sps,
    array_posts (h ++ (PostObj <$> ps) ++ [ArrayObj sorted]) (length h + length ps)
      = Some sps ∧
    sps ≡ₚ ps.
Proof.
  intros Hperm.
  destruct (mapM_get_post_Permutation _ _ _ _ Hperm (mapM_get_post_seq h [ArrayObj sorted] ps))
    as (sps & Hsps & Hperm').
  exists sps. split; [|done]. unfold array_posts. rewrite !app_assoc.
  pose proof (get_array_tail (h ++ (PostObj <$> ps)) sorted) as Harr.
  rewrite length_app, length_fmap in Harr. rewrite Harr. cbn [mbind option_bind].
  by rewrite <-!app_assoc.
Qed.


(** X2. [getPosts] allocates: the cells of the heap it starts from are as
    they were, the array it returns is a new one, and this array holds one
    post for each file path of the directory scan, whatever the dates. *)
Theorem getPosts_fresh (pf : Platform) (h h' : Heap) (a : loc) :
  getPosts pf h = Some (a, h') →
  h !! a = None ∧
  (∀ l o, h !! l = Some o → h' !! l = Some o) ∧
  ∃ paths sps,
    getPostFilePaths pf = Some paths ∧
    array_posts h' a = Some sps ∧
    filePath <$> sps ≡ₚ paths.
Proof.
  intros (paths & ps & sorted & Hpaths & Hread & Hperm & -> & ->)%getPosts_shape.
  split; [apply lookup_ge_None; lia|].
  split; [intros l o Hl; by apply lookup_app_l_Some|].
  destruct (array_posts_shape h ps sorted Hperm) as (sps & Hsps & Hperm').
  exists paths, sps. split; [done|]. split; [done|].
  by rewrite Hperm', (mapM_readPost_filePath pf paths ps Hread).
Qed.

Lemma getPosts_array_posts (pf : Platform) (h h' : Heap) (a : loc) :
  getPosts pf h = Some (a, h') → is_Some (array_posts h' a).
Proof.
  intros (paths & ps & sorted & _ & _ & Hperm & -> & ->)%getPosts_shape.
  destruct (array_posts_shape h ps sorted Hperm) as (sps & Hsps & _). by exists sps.
Qed.

(** X9. The navigation functions throw exactly when [getPosts] does: no
    slug makes them throw. *)
Theorem navigation_throws (pf : Platform) (slug : string) (h : Heap) :
  (getNextPostBySlug pf slug h = None ↔ getPosts pf h = None) ∧
  (getPreviousPostBySlug pf slug h = None ↔ getPosts pf h = None).
Proof.
  rewrite getNextPostBySlug_offset, getPreviousPostBySlug_offset.
  assert (Hany : ∀ offset,
            adjacentPostBySlug pf offset slug h = None ↔ getPosts pf h = None).
  { intros offset. destruct (getPosts pf h) as [[a h']|] eqn:Hget.
    - destruct (getPosts_array_posts pf h h' a Hget) as [ps Hps].
      destruct (adjacentPostBySlug_spec pf offset slug h h' a ps Hget Hps)
        as (idx & -> & _). done.
    - split; [done|]. intros _. unfold adjacentPostBySlug, bind. by rewrite Hget. }
  split; apply Hany.
Qed.

(** X7. When the directory has no post, [getPosts] returns a new empty
    array and both navigation functions return null, whatever the slug. *)
Theorem no_posts (pf : Platform) (slug : string) (h : Heap) :
  getPostFilePaths pf = Some [] →
  getPosts pf h = Some (length h, h ++ [ArrayObj []]) ∧
  getNextPostBySlug pf slug h = Some (None, h ++ [ArrayObj []]) ∧
  getPreviousPostBySlug pf slug h = Some (None, h ++ [ArrayObj []]).
Proof.
  intros Hpaths.
  assert (Hget : getPosts pf h = Some (length h, h ++ [ArrayObj []])).
  { rewrite getPosts_unfold, Hpaths. cbn. by rewrite Nat.add_0_r. }
  assert (Hps : array_posts (h ++ [ArrayObj []]) (length h) = Some []).
  { unfold array_posts. by rewrite get_array_tail. }
  split; [done|].
  rewrite getNextPostBySlug_offset, getPreviousPostBySlug_offset.
  split.
  - destruct (adjacentPostBySlug_spec pf (-1) slug _ _ _ _ Hget Hps) as (idx & -> & _).
    unfold post_at. destruct (decide _); by rewrite ?lookup_nil.
  - destruct (adjacentPostBySlug_spec pf 1 slug _ _ _ _ Hget Hps) as (idx & -> & _).
    unfold post_at. destruct (decide _); by rewrite ?lookup_nil.
Qed.

(** *** Further facts about the sort *)

Lemma Array_sort_descending_noop (pf : Platform) (h : Heap) (elems : list loc)
    (ps : list Post) :
  mapM (get_post h) elems = Some ps →
  date_descending pf ps →
  Array_sort (compareDates pf h) elems = Some elems.
Proof.
  rewrite mapM_Some. intros Hps. induction Hps as [|l p elems ps Hl Hps IH]; [done|].
  intros Hdesc. cbn [Array_sort]. rewrite IH; cycle 1.
  { intros i p1 p2 H1 H2. by apply (Hdesc (S i)). }
  cbn [mbind option_bind]. destruct Hps as [|l2 p2 elems ps Hl2 Hps]; [done|].
  cbn [sort_insert]. unfold SortCompare, compareDates. rewrite Hl, Hl2. cbn.
  pose proof (Hdesc 0%nat p p2 eq_refl eq_refl) as Hge. unfold date_ge in Hge.
  destruct (new_Date pf (date (data p))) as [|tp]; [done|].
  destruct (new_Date pf (date (data p2))) as [|tp2]; [done|].
  cbn. by rewrite decide_True by lia.
Qed.

(** X3. On an array whose posts are already in descending order of date
    [sortPostsByDate] changes nothing: sorting what [getPosts] returned
    again is harmless. *)
Theorem sortPostsByDate_sorted (pf : Platform) (h : Heap) (a : loc) (ps : list Post) :
  array_posts h a = Some ps →
  date_descending pf ps →
  sortPostsByDate pf a h = Some (a, h).
Proof.
  unfold array_posts, sortPostsByDate.
  destruct (get_array h a) as [elems|] eqn:Ha; cbn [mbind option_bind]; [|done].
  intros Hps Hdesc. rewrite (Array_sort_descending_noop pf h elems ps Hps Hdesc).
  cbn [mbind option_bind]. do 2 f_equal. apply list_insert_id.
  unfold get_array in Ha. by destruct (h !! a) as [[?|?]|]; simplify_eq.
Qed.

Global Instance Number_eq_dec : EqDecision Number.
Proof. solve_decision. Defined.

(** The sort is stable: elements of equal key keep their order. *)
Section Stable.
Context {A : Type} (comparefn : A → A → option Number).
Variables (P : A → Prop) (key : A → Z).
Hypothesis comparefn_key :
  ∀ x y, P x → P y → comparefn x y = Some (Finite (key y - key x)).

Lemma sort_insert_stable (k : Z) (x : A) (l l' : list A) :
  P x → Forall P l →
  sort_insert comparefn x l = Some l' →
  filter (λ y, key y = k) l' = filter (λ y, key y = k) (x :: l).
Proof.
  intros Hx HP. revert l'. induction HP as [|y l Hy HP IH]; intros l'; cbn [sort_insert].
  - by intros [= <-].
  - unfold SortCompare. rewrite (comparefn_key x y Hx Hy). cbn [mbind option_bind].
    destruct (decide (key y - key x ≤ 0)) as [Hle|Hgt]; [by intros [= <-]|].
    destruct (sort_insert comparefn x l) as [l''|] eqn:Hi; cbn [mbind option_bind]; [|done].
    intros [= <-]. specialize (IH l'' eq_refl).
    rewrite (filter_cons _ y l''), IH, !(filter_cons _ x), !(filter_cons _ y).
    repeat case_decide; try done; lia.
Qed.

Lemma Array_sort_stable (k : Z) (l l' : list A) :
  Forall P l → Array_sort comparefn l = Some l' →
  filter (λ y, key y = k) l' = filter (λ y, key y = k) l.
Proof.
  intros HP. revert l'. induction HP as [|x l Hx HP IH]; intros l'; cbn [Array_sort].
  - by intros [= <-].
  - destruct (Array_sort comparefn l) as [s|] eqn:Hs; cbn [mbind option_bind]; [|done].
    intros Hi. rewrite (sort_insert_stable k x s l'); [| done | | done].
    + by rewrite !(filter_cons _ x), (IH s eq_refl).
    + by rewrite (Array_sort_Permutation _ _ _ Hs).
Qed.
End Stable.

(** X4. With valid dates, the posts of one date are, after
    [sortPostsByDate], in the order in which the array had them (the sort
    being the stable one the language prescribes). *)
Theorem sortPostsByDate_stable (pf : Platform) (h : Heap) (a : loc) (ps : list Post) :
  array_posts h a = Some ps →
  Forall (valid_date pf) ps →
  ∃ h' ps',
    sortPostsByDate pf a h = Some (a, h') ∧
    array_posts h' a = Some ps' ∧
    ∀ t, filter (λ p, new_Date pf (date (data p)) = Finite t) ps'
         = filter (λ p, new_Date pf (date (data p)) = Finite t) ps.
Proof.
  unfold array_posts, sortPostsByDate.
  destruct (get_array h a) as [elems|] eqn:Ha; cbn [mbind option_bind]; [|done].
  intros Hps Hvalid.
  destruct (Array_sort_compareDates pf h elems ps Hps) as (sorted & Hs & Hperm & _).
  destruct (mapM_get_post_Permutation h elems sorted ps Hperm Hps) as (ps' & Hps' & Hperm').
  exists (<[a:=ArrayObj sorted]> h), ps'. rewrite Hs. cbn [mbind option_bind].
  split; [done|]. rewrite (get_array_insert _ _ _ _ Ha). cbn [mbind option_bind]. split.
  { rewrite <-Hps'. apply mapM_ext. intros l. by eapply get_post_insert_array. }
  intros t.
  assert (Hvalid' : Forall (valid_date pf) ps') by (by rewrite Hperm').
  set (R := λ (l : loc) (p : Post), get_post h l = Some p ∧ valid_date pf p).
  assert (HR : ∀ l ps0, mapM (get_post h) l = Some ps0 → Forall (valid_date pf) ps0 →
                 Forall2 R l ps0).
  { intros l ps0 Hl%mapM_Some Hv. induction Hl as [|x y l ps0 Hxy _ IH]; [constructor|].
    apply Forall_cons in Hv as [Hv1 Hv2]. constructor; [by split|by apply IH]. }
  assert (Hkey : ∀ l p, R l p →
                 date_key pf h l = t ↔ new_Date pf (date (data p)) = Finite t).
  { intros l p [Hl Hv]. unfold date_key, valid_date in *. rewrite Hl.
    destruct (new_Date pf (date (data p))); [done|]. split; [by intros ->|by intros [= ->]]. }
  pose proof (Forall2_filter R _ _ _ _ Hkey (HR sorted ps' Hps' Hvalid')) as F1.
  pose proof (Forall2_filter R _ _ _ _ Hkey (HR elems ps Hps Hvalid)) as F2.
  rewrite (Array_sort_stable (compareDates pf h)
             (λ l, ∃ p, get_post h l = Some p ∧ valid_date pf p) (date_key pf h)
             (compareDates_key pf h) t elems sorted) in F1; [| |done].
  - eapply Forall2_unique; [exact F1|exact F2|].
    intros l p1 p2 [H1 _] [H2 _]. congruence.
  - eapply Forall2_Forall_l; [exact (HR elems ps Hps Hvalid)|].
    apply Forall_true. intros p l [Hl Hv]. eauto.
Qed.

(** *** Further facts about slugs and navigation *)

(** X8. The slug of a file name is the name without its final [.md] or
    [.mdx], and the name itself when it does not end in one of them. *)
Theorem slug_of_file_name (name : string) :
  (∀ stem, name = stem +:+ ".md" ∨ name = stem +:+ ".mdx" →
     replace name MDX_RE EmptyString = stem) ∧
  (¬ md_extension name → replace name MDX_RE EmptyString = name).
Proof.
  split.
  - intros stem [-> | ->]; apply replace_MDX_RE; auto.
  - intros Hno. unfold replace.
    destruct (exec MDX_RE name) as [[before rest]|] eqn:He; [|done].
    destruct Hno. apply test_MDX_RE. unfold test. by rewrite He.
Qed.

(** X5. For a post of a [.mdx] file that [getPosts] returns, [getPostBySlug]
    at its slug reads the same file: it gives the same front matter, and
    the serialized content of that post. *)
Theorem getPostBySlug_same_post (pf : Platform) (slug : string)
    (h h' : Heap) (a : loc) (ps : list Post) (p : Post) :
  getPosts pf h = Some (a, h') →
  array_posts h' a = Some ps →
  p ∈ ps →
  filePath p = slug +:+ ".mdx" →
  getPostBySlug pf slug =
    (mdxSource ← serialize pf (content p) (data p);
     Some (mdxSource, data p, path_join pf (POSTS_PATH pf) (slug +:+ ".mdx"))).
Proof.
  intros Hget Hps Hin Hfile.
  destruct (getPosts_inv pf h h' a ps Hget Hps) as (paths & ps0 & _ & Hread & Hperm).
  rewrite Hperm in Hin. apply list_elem_of_lookup in Hin as [i Hi].
  apply mapM_Some in Hread.
  destruct (Forall2_lookup_r _ _ _ _ _ Hread Hi) as (name & _ & Hp).
  pose proof (readPost_filePath pf name p Hp) as Hname.
  rewrite Hfile in Hname. subst name.
  unfold readPost in Hp. unfold getPostBySlug.
  destruct (readFileSync pf _) as [src|]; cbn in Hp |- *; [|done].
  destruct (matter pf src) as [[c d]|]; cbn in Hp |- *; [|done].
  by injection Hp as <-.
Qed.

(** X6. For two neighbours in the array that [getPosts] returns which are
    both [.mdx] files, the directory entries being distinct, the previous
    post of the first is the second and the next post of the second is the
    first. *)
Theorem neighbours_round_trip (pf : Platform) (s t : string)
    (h h' : Heap) (a : loc) (ps : list Post) (i : nat) (p q : Post) :
  distinct_entries pf →
  getPosts pf h = Some (a, h') →
  array_posts h' a = Some ps →
  ps !! i = Some p →
  ps !! S i = Some q →
  filePath p = s +:+ ".mdx" →
  filePath q = t +:+ ".mdx" →
  getPreviousPostBySlug pf s h
    = Some (Some {| Link.title := title (data q); Link.slug := t |}, h') ∧
  getNextPostBySlug pf t h
    = Some (Some {| Link.title := title (data p); Link.slug := s |}, h').
Proof.
  intros Hdist Hget Hps Hi HSi Hp Hq.
  rewrite getNextPostBySlug_offset, getPreviousPostBySlug_offset.
  rewrite (adjacentPostBySlug_at pf 1 s h h' a ps i p) by done.
  rewrite (adjacentPostBySlug_at pf (-1) t h h' a ps (S i) q) by done.
  unfold post_at. rewrite !decide_True by lia.
  replace (Z.to_nat (Z.of_nat i + 1)) with (S i) by lia.
  replace (Z.to_nat (Z.of_nat (S i) + -1)) with i by lia.
  rewrite Hi, HSi. cbn [fmap option_fmap option_map]. unfold link_of.
  rewrite Hp, Hq, !replace_MDX_RE by auto. done.
Qed.

End MdxFacts.

(** ** The global-data module *)

Module GlobalDataFacts.

Import GlobalData GlobalDataSpec.

Section WithDecoder.
Variable decodeURI : string → option string.
Local Abbreviation decoded_or := (decoded_or decodeURI).
Local Abbreviation getGlobalData := (getGlobalData decodeURI).
Local Abbreviation decodable := (decodable decodeURI).
Local Abbreviation field_of := (field_of decodeURI).

Lemma decoded_or_field (env : gmap string string) (key otherwise : string) :
  decodable env key →
  ∃ x, decoded_or (env !! key) otherwise = Some x ∧ field_of env key otherwise x.
Proof.
  unfold decodable, decoded_or, field_of. intros Hdec.
  destruct (env !! key) as [s|].
  - destruct (decide (s = EmptyString)) as [->|Hs].
    + exists otherwise. repeat split; intros; congruence.
    + destruct (Hdec s eq_refl Hs) as [x Hx]. exists x.
      repeat split; intros; congruence.
  - exists otherwise. repeat split; intros; congruence.
Qed.

(** C5. When the variables that are set and not empty can be decoded,
    [getGlobalData] returns an object whose [name], [blogTitle] and
    [footerText] are the decoded values of [BLOG_NAME], [BLOG_TITLE] and
    [BLOG_FOOTER_TEXT] where these are set and not empty, and 'Jay Doe',
    'Next.js Blog Theme' and 'All rights reserved.' where they are
    unset (or empty). *)
Theorem getGlobalData_fields (env : gmap string string) :
  decodable env "BLOG_NAME" →
  decodable env "BLOG_TITLE" →
  decodable env "BLOG_FOOTER_TEXT" →
  ∃ g,
    getGlobalData env = Some g ∧
    field_of env "BLOG_NAME" "Jay Doe" (name g) ∧
    field_of env "BLOG_TITLE" "Next.js Blog Theme" (blogTitle g) ∧
    field_of env "BLOG_FOOTER_TEXT" "All rights reserved." (footerText g).
Proof.
  intros H1 H2 H3. unfold getGlobalData.
  destruct (decoded_or_field env _ "Jay Doe" H1) as (x1 & -> & F1).
  destruct (decoded_or_field env _ "Next.js Blog Theme" H2) as (x2 & -> & F2).
  destruct (decoded_or_field env _ "All rights reserved." H3) as (x3 & -> & F3).
  cbn. eexists. split; [done|]. by cbn.
Qed.

End WithDecoder.

Section Throws.
Variable decodeURI : string → option string.

Lemma decoded_or_None (v : option string) (otherwise : string) :
  decoded_or decodeURI v otherwise = None ↔
    ∃ s, v = Some s ∧ s ≠ EmptyString ∧ decodeURI s = None.
Proof.
  unfold decoded_or. destruct v as [s|].
  - destruct (decide (s = EmptyString)) as [->|Hs].
    + split; [done|]. by intros (s & [= <-] & Hs & _).
    + split; [by exists s|]. by intros (s' & [= <-] & _ & Hd).
  - split; [done|]. by intros (s & [=] & _).
Qed.

(** X10. [getGlobalData] throws exactly when one of [BLOG_NAME],
    [BLOG_TITLE] and [BLOG_FOOTER_TEXT] is set, is not empty and cannot be
    decoded; no other variable of the environment matters. *)
Theorem getGlobalData_throws (env : gmap string string) :
  getGlobalData decodeURI env = None ↔
    ∃ key s,
      key ∈ ["BLOG_NAME"; "BLOG_TITLE"; "BLOG_FOOTER_TEXT"] ∧
      env !! key = Some s ∧ s ≠ EmptyString ∧ decodeURI s = None.
Proof.
  unfold getGlobalData. split.
  - destruct (decoded_or decodeURI (env !! "BLOG_NAME") _) as [x1|] eqn:H1; cbn.
    2:{ intros _. apply decoded_or_None in H1 as (s & ? & ? & ?).
        exists "BLOG_NAME", s. set_solver. }
    destruct (decoded_or decodeURI (env !! "BLOG_TITLE") _) as [x2|] eqn:H2; cbn.
    2:{ intros _. apply decoded_or_None in H2 as (s & ? & ? & ?).
        exists "BLOG_TITLE", s. set_solver. }
    destruct (decoded_or decodeURI (env !! "BLOG_FOOTER_TEXT") _) as [x3|] eqn:H3; cbn.
    2:{ intros _. apply decoded_or_None in H3 as (s & ? & ? & ?).
        exists "BLOG_FOOTER_TEXT", s. set_solver. }
    done.
  - intros (key & s & Hkey & Hs & Hne & Hd).
    assert (Hnone : ∀ otherwise, decoded_or decodeURI (env !! key) otherwise = None)
      by (intros otherwise; apply decoded_or_None; eauto).
    apply elem_of_cons in Hkey as [->|Hkey]; [by rewrite Hnone|].
    destruct (decoded_or decodeURI (env !! "BLOG_NAME") _); cbn; [|done].
    apply elem_of_cons in Hkey as [->|Hkey]; [by rewrite Hnone|].
    destruct (decoded_or decodeURI (env !! "BLOG_TITLE") _); cbn; [|done].
    apply list_elem_of_singleton in Hkey as ->. by rewrite Hnone.
Qed.
End Throws.

End GlobalDataFacts.

(** ** utils/tailwind-preset.js *)

Module TailwindPresetFacts.

Import TailwindPreset TailwindSpec.

(** *** Facts about the loop over the color keys *)

Lemma color_variable_inj (k1 k2 : string) :
  "--color-" +:+ k1 = "--color-" +:+ k2 → k1 = k2.
Proof. apply (inj (String.append "--color-")). Qed.

Lemma color_variable_not_font (k : string) :
  "--color-" +:+ k ≠ "--font-primary" ∧ "--color-" +:+ k ≠ "--font-secondary".
Proof. rewrite !Str.app_cons. split; discriminate. Qed.

Lemma foldl_add_color_other (theme : ColorTheme) (keys : list string)
    (cssVars : gmap string value) (var : string) :
  (∀ k, k ∈ keys → var ≠ "--color-" +:+ k) →
  foldl (add_color theme) cssVars keys !! var = cssVars !! var.
Proof.
  revert cssVars. induction keys as [|k keys IH]; intros cssVars Hvar; [done|].
  cbn. rewrite IH by (intros k' Hk'; apply Hvar; by right).
  unfold add_color. rewrite lookup_insert_ne; [done|].
  intros Heq. by apply (Hvar k); [left|].
Qed.

Lemma foldl_add_color_key (theme : ColorTheme) (keys : list string)
    (cssVars : gmap string value) (k : string) :
  k ∈ keys →
  foldl (add_color theme) cssVars keys !! ("--color-" +:+ k)
    = Some (Str (default "undefined" (colors theme !! k))).
Proof.
  revert cssVars. induction keys as [|k0 keys IH]; intros cssVars Hk.
  - by apply elem_of_nil in Hk.
  - cbn. destruct (decide (k ∈ keys)) as [Hin|Hnotin]; [by apply IH|].
    apply elem_of_cons in Hk as [->|Hk]; [|done].
    rewrite foldl_add_color_other.
    + unfold add_color. by rewrite lookup_insert_eq.
    + intros k' Hk' ->%color_variable_inj. done.
Qed.

Lemma foldl_add_color_is_Some (theme : ColorTheme) (keys : list string)
    (cssVars : gmap string value) (var : string) :
  is_Some (foldl (add_color theme) cssVars keys !! var) →
  is_Some (cssVars !! var) ∨ ∃ k, k ∈ keys ∧ var = "--color-" +:+ k.
Proof.
  revert cssVars. induction keys as [|k keys IH]; intros cssVars; cbn; [by left|].
  intros [Hvar|(k' & Hk' & ->)]%IH.
  - unfold add_color in Hvar. destruct (decide (var = "--color-" +:+ k)) as [->|Hne].
    + right. exists k. split; [by left|done].
    + rewrite lookup_insert_ne in Hvar by done. by left.
  - right. exists k'. split; [by right|done].
Qed.

Lemma foldl_add_color_size (theme : ColorTheme) (keys : list string)
    (cssVars : gmap string value) :
  NoDup keys →
  (∀ k, k ∈ keys → cssVars !! ("--color-" +:+ k) = None) →
  size (foldl (add_color theme) cssVars keys) = (size cssVars + length keys)%nat.
Proof.
  intros Hnd. revert cssVars.
  induction Hnd as [|k keys Hk Hnd IH]; intros cssVars Hfresh; cbn; [lia|].
  rewrite IH.
  - unfold add_color. rewrite map_size_insert_None by (apply Hfresh; by left). lia.
  - intros k' Hk'. unfold add_color. rewrite lookup_insert_ne.
    + apply Hfresh. by right.
    + intros ->%color_variable_inj. done.
Qed.

Lemma elem_of_Object_keys {A} (o : gmap string A) (k : string) :
  k ∈ Object_keys o ↔ is_Some (o !! k).
Proof.
  unfold Object_keys. rewrite list_elem_of_fmap. split.
  - intros ([k' x] & -> & Hx). apply elem_of_map_to_list in Hx. by exists x.
  - intros [x Hx]. exists (k, x). split; [done|]. by apply elem_of_map_to_list.
Qed.

Section Plugin.
Variables (COLOR_THEMES : gmap string ColorTheme) (FONT_THEMES : gmap string string).
Variable env : gmap string string.
Local Abbreviation THEME := (THEME env).
Local Abbreviation FONT_PRIMARY := (FONT_PRIMARY env).
Local Abbreviation FONT_SECONDARY := (FONT_SECONDARY env).
Local Abbreviation themesConfig := (themesConfig COLOR_THEMES FONT_THEMES env).

Lemma selected_or_default (key otherwise x : string) :
  selected env key otherwise x → x = or_default (env !! key) otherwise.
Proof.
  intros (Hset & Hunset & Hempty). unfold or_default.
  destruct (env !! key) as [s|]; [|by apply Hunset].
  destruct (decide (s = EmptyString)) as [->|Hs]; [by apply Hempty|by apply Hset].
Qed.

Lemma read_at_get (table : gmap string string) (key : string) :
  read_at table key (get table key).
Proof.
  unfold read_at, get. destruct (table !! key) as [s|].
  - split; [by intros ? [= <-]|]. by split.
  - split; [done|]. split; intros _ Hkey; [by rewrite decide_True|by rewrite decide_False].
Qed.

Lemma read_at_unique (table : gmap string string) (key : string) (v : value) :
  read_at table key v → v = get table key.
Proof.
  intros (Hown & Hinherited & Hnone). unfold get.
  destruct (table !! key) as [s|]; [by apply Hown|].
  destruct (decide _); auto.
Qed.

(** The variables of the component, in terms of the constants of the
    module. *)
Lemma themesConfig_run (theme : ColorTheme) :
  COLOR_THEMES !! THEME = Some theme →
  ∃ cssVars,
    themesConfig = Some [ {[ ".theme-compiled" := cssVars ]} ] ∧
    (∀ key color, colors theme !! key = Some color →
       cssVars !! ("--color-" +:+ key) = Some (Str color)) ∧
    cssVars !! "--font-primary" = Some (get FONT_THEMES FONT_PRIMARY) ∧
    cssVars !! "--font-secondary" = Some (get FONT_THEMES FONT_SECONDARY) ∧
    (∀ var, is_Some (cssVars !! var) →
       var = "--font-primary" ∨ var = "--font-secondary" ∨
       ∃ key, is_Some (colors theme !! key) ∧ var = "--color-" +:+ key) ∧
    size cssVars = (size (colors theme) + 2)%nat.
Proof.
  intros Htheme. unfold themesConfig. rewrite Htheme. cbn.
  set (base := foldl (add_color theme) ∅ (Object_keys (colors theme))).
  eexists. split; [done|]. repeat split.
  - intros key color Hkey.
    destruct (color_variable_not_font key) as [H1 H2].
    rewrite !lookup_insert_ne by done. unfold base.
    rewrite foldl_add_color_key by (apply elem_of_Object_keys; eauto).
    by rewrite Hkey.
  - rewrite lookup_insert_ne by done. by rewrite lookup_insert_eq.
  - by rewrite lookup_insert_eq.
  - intros var Hvar.
    destruct (decide (var = "--font-secondary")) as [->|Hne2]; [by auto|].
    destruct (decide (var = "--font-primary")) as [->|Hne1]; [by auto|].
    right; right. rewrite !lookup_insert_ne in Hvar by done.
    apply foldl_add_color_is_Some in Hvar as [Hvar|(key & Hkey & ->)].
    + rewrite lookup_empty in Hvar. by destruct Hvar.
    + exists key. by rewrite <-elem_of_Object_keys.
  - assert (Hbase : size base = size (colors theme)).
    { unfold base. rewrite foldl_add_color_size.
      - rewrite map_size_empty. unfold Object_keys.
        by rewrite length_fmap, length_map_to_list.
      - apply NoDup_fst_map_to_list.
      - intros k _. apply lookup_empty. }
    assert (Hp : base !! "--font-primary" = None).
    { unfold base. rewrite foldl_add_color_other; [apply lookup_empty|].
      intros k _ Heq. by destruct (color_variable_not_font k) as [[] _]. }
    assert (Hs : base !! "--font-secondary" = None).
    { unfold base. rewrite foldl_add_color_other; [apply lookup_empty|].
      intros k _ Heq. by destruct (color_variable_not_font k) as [_ []]. }
    rewrite map_size_insert_None by (by rewrite lookup_insert_ne).
    rewrite map_size_insert_None by done. lia.
Qed.

(** C7. Let [name] be the variable [BLOG_THEME] of the environment, or
    'default' when it is unset or empty, and [heading] and [body] the
    variables [BLOG_FONT_HEADINGS] and [BLOG_FONT_BODY], or 'sans-serif'.
    When [COLOR_THEMES] has the theme [name], the plugin passes one object
    to [addComponents], whose only selector is [.theme-compiled]; its
    variables are [--color-key], with the color of [key], for every color
    key of that theme, [--font-primary], which is [FONT_THEMES] read at
    [heading], and [--font-secondary], which is [FONT_THEMES] read at
    [body], and no other: there are as many variables as color keys, and
    two. *)
Theorem themesConfig_variables (theme : ColorTheme) (name heading body : string) :
  selected env "BLOG_THEME" "default" name →
  selected env "BLOG_FONT_HEADINGS" "sans-serif" heading →
  selected env "BLOG_FONT_BODY" "sans-serif" body →
  COLOR_THEMES !! name = Some theme →
  ∃ cssVars,
    themesConfig = Some [ {[ ".theme-compiled" := cssVars ]} ] ∧
    (∀ key color, colors theme !! key = Some color →
       cssVars !! ("--color-" +:+ key) = Some (Str color)) ∧
    (∃ v, cssVars !! "--font-primary" = Some v ∧ read_at FONT_THEMES heading v) ∧
    (∃ v, cssVars !! "--font-secondary" = Some v ∧ read_at FONT_THEMES body v) ∧
    (∀ var, is_Some (cssVars !! var) →
       var = "--font-primary" ∨ var = "--font-secondary" ∨
       ∃ key, is_Some (colors theme !! key) ∧ var = "--color-" +:+ key) ∧
    size cssVars = (size (colors theme) + 2)%nat.
Proof.
  intros ->%selected_or_default ->%selected_or_default ->%selected_or_default Htheme.
  destruct (themesConfig_run theme Htheme)
    as (cssVars & Hrun & Hcolors & Hprimary & Hsecondary & Honly & Hsize).
  exists cssVars. split; [done|]. split; [done|].
  split; [eexists; split; [exact Hprimary|apply read_at_get]|].
  split; [eexists; split; [exact Hsecondary|apply read_at_get]|]. by split.
Qed.

(** X11. With [name], [heading] and [body] selected as for C7, the plugin
    throws exactly when [COLOR_THEMES] has no entry for [name].  A font
    that [FONT_THEMES] does not have never makes it throw: the variable is
    defined all the same, with the value undefined, or, when the name of
    the font is the name of a member of [Object.prototype], with that
    member. *)
Theorem themesConfig_missing (name heading body : string) :
  selected env "BLOG_THEME" "default" name →
  selected env "BLOG_FONT_HEADINGS" "sans-serif" heading →
  selected env "BLOG_FONT_BODY" "sans-serif" body →
  (themesConfig = None ↔ COLOR_THEMES !! name = None) ∧
  (∀ components, themesConfig = Some components →
     ∃ cssVars,
       components = [ {[ ".theme-compiled" := cssVars ]} ] ∧
       (cssVars !! "--font-primary" = Some Undefined ↔
          FONT_THEMES !! heading = None ∧ heading ∉ Object_prototype) ∧
       (cssVars !! "--font-primary" = Some (Inherited heading) ↔
          FONT_THEMES !! heading = None ∧ heading ∈ Object_prototype) ∧
       (cssVars !! "--font-secondary" = Some Undefined ↔
          FONT_THEMES !! body = None ∧ body ∉ Object_prototype) ∧
       (cssVars !! "--font-secondary" = Some (Inherited body) ↔
          FONT_THEMES !! body = None ∧ body ∈ Object_prototype)).
Proof.
  intros ->%selected_or_default ->%selected_or_default ->%selected_or_default.
  assert (Hget : ∀ key,
            (Some (get FONT_THEMES key) = Some Undefined ↔
               FONT_THEMES !! key = None ∧ key ∉ Object_prototype) ∧
            (Some (get FONT_THEMES key) = Some (Inherited key) ↔
               FONT_THEMES !! key = None ∧ key ∈ Object_prototype)).
  { intros key. unfold get. destruct (FONT_THEMES !! key) as [s|].
    - split; (split; [by intros [=]|by intros [[=] _]]).
    - destruct (decide (key ∈ Object_prototype)) as [Hin|Hnot].
      + split; (split; [by intros [=]|by intros [_ ?]]).
      + split; (split; [by intros [=]|by intros [_ ?]]). }
  fold THEME FONT_PRIMARY FONT_SECONDARY.
  unfold TailwindPreset.themesConfig. destruct (COLOR_THEMES !! THEME) as [theme|]; cbn.
  - split; [done|]. intros components [= <-]. eexists. split; [done|].
    rewrite lookup_insert_ne by done. rewrite !lookup_insert_eq.
    destruct (Hget FONT_PRIMARY) as [H1 H2], (Hget FONT_SECONDARY) as [H3 H4]. done.
  - split; [done|]. by intros components [=].
Qed.

End Plugin.

End TailwindPresetFacts.

(** ** components/Layout.js *)

Module LayoutFacts.

Import Layout.

(** C10. On mount the class list of the document root gets [dark] when
    the stored theme is 'dark', loses it when the stored theme is
    'light', every other class staying as it was, and is unchanged for
    any other stored value and for none; the storage is not written. *)
Theorem mount_theme_class (b : Browser) :
  localStorage (mount b) = localStorage b ∧
  (getItem "theme" b = Some "dark" →
     "dark" ∈ classList (mount b) ∧
     ∀ c, c ≠ "dark" → (c ∈ classList (mount b) ↔ c ∈ classList b)) ∧
  (getItem "theme" b = Some "light" →
     ("dark" ∉ classList (mount b)) ∧
     ∀ c, c ≠ "dark" → (c ∈ classList (mount b) ↔ c ∈ classList b)) ∧
  (getItem "theme" b ≠ Some "dark" → getItem "theme" b ≠ Some "light" →
     classList (mount b) = classList b).
Proof.
  unfold mount, setAppTheme. cbn [handleSystemThemeChange localStorage classList].
  split; [by repeat case_bool_decide|]. split; [|split].
  - intros Hd. rewrite bool_decide_eq_true_2 by done. cbn. split.
    + destruct (decide _); [done|]. apply elem_of_app. right. by left.
    + intros c Hc. destruct (decide _); [done|].
      rewrite elem_of_app, list_elem_of_singleton. tauto.
  - intros Hl. rewrite bool_decide_eq_false_2 by congruence.
    rewrite bool_decide_eq_true_2 by done. cbn. split.
    + rewrite list_elem_of_filter. by intros [? _].
    + intros c Hc. rewrite list_elem_of_filter. tauto.
  - intros Hd Hl. by rewrite !bool_decide_eq_false_2 by done.
Qed.

(** *** Further facts about the theme effects *)

Lemma filter_ne_idemp (token : string) (l : list string) :
  filter (λ c, c ≠ token) (filter (λ c, c ≠ token) l) = filter (λ c, c ≠ token) l.
Proof. rewrite list_filter_filter. apply list_filter_iff. tauto. Qed.

Lemma classList_add_present (token : string) (b : Browser) :
  token ∈ classList b → classList (classList_add token b) = classList b.
Proof. intros Hin. cbn. by rewrite decide_True. Qed.

Lemma elem_of_classList_add (token c : string) (b : Browser) :
  c ∈ classList (classList_add token b) ↔ c = token ∨ c ∈ classList b.
Proof.
  cbn. destruct (decide (token ∈ classList b)) as [Hin|Hnot].
  - split; [by auto|]. by intros [-> |].
  - rewrite elem_of_app, list_elem_of_singleton. tauto.
Qed.

Lemma elem_of_classList_remove (token c : string) (b : Browser) :
  c ∈ classList (classList_remove token b) ↔ c ≠ token ∧ c ∈ classList b.
Proof. cbn. by rewrite list_elem_of_filter. Qed.

(** X12. Running the two effects again changes nothing: [mount] is
    idempotent. *)
Theorem mount_idempotent (b : Browser) : mount (mount b) = mount b.
Proof.
  destruct b as [store classes handler].
  unfold mount, setAppTheme, handleSystemThemeChange, getItem. cbn.
  destruct (bool_decide (store !! "theme" = Some "dark")) eqn:Hd; cbn.
  - rewrite Hd. cbn. f_equal.
    repeat case_decide; try done;
      match goal with
      | H : _ ∉ _ ++ [_] |- _ => destruct H; apply elem_of_app; right; by left
      end.
  - destruct (bool_decide (store !! "theme" = Some "light")) eqn:Hl; cbn.
    + rewrite Hd, Hl. cbn. f_equal. apply filter_ne_idemp.
    + by rewrite Hd, Hl.
Qed.

(** X13. The class list stays a set: when no class occurs twice in it,
    none does after the effects of mount or after the handler of a change
    of the system theme. *)
Theorem classList_NoDup (b : Browser) (matches : bool) :
  NoDup (classList b) →
  NoDup (classList (mount b)) ∧ NoDup (classList (onchange matches b)).
Proof.
  intros Hnd.
  assert (Hadd : NoDup (classList (classList_add "dark" b))).
  { cbn. destruct (decide _) as [Hin|Hnot]; [done|].
    apply NoDup_app. split; [done|]. split; [|apply NoDup_singleton].
    intros c Hc ->%list_elem_of_singleton. done. }
  assert (Hrem : NoDup (classList (classList_remove "dark" b)))
    by (cbn; by apply NoDup_filter).
  split.
  - unfold mount, setAppTheme. cbn [handleSystemThemeChange classList].
    by repeat case_bool_decide.
  - unfold onchange. by destruct matches.
Qed.

(** X14. After the handler of a change of the system theme the stored
    theme and the class agree: the stored theme is 'dark' or 'light' as the
    event says, [dark] is a class exactly when it is 'dark', and
    [setAppTheme] then leaves the browser as it is. *)
Theorem onchange_consistent (matches : bool) (b : Browser) :
  getItem "theme" (onchange matches b) = Some (if matches then "dark" else "light") ∧
  ("dark" ∈ classList (onchange matches b) ↔ matches = true) ∧
  setAppTheme (onchange matches b) = onchange matches b.
Proof.
  assert (Hitem : getItem "theme" (onchange matches b)
                  = Some (if matches then "dark" else "light")).
  { unfold onchange, getItem. destruct matches; apply lookup_insert_eq. }
  split; [done|]. destruct b as [store classes handler]. destruct matches.
  - split.
    + split; [done|]. intros _. cbn.
      destruct (decide _); [done|]. apply elem_of_app. right. by left.
    + unfold setAppTheme. rewrite Hitem, bool_decide_eq_true_2 by done.
      unfold onchange, setItem, classList_add. cbn. f_equal.
      repeat case_decide; try done;
      match goal with
      | H : _ ∉ _ ++ [_] |- _ => destruct H; apply elem_of_app; right; by left
      end.
  - split.
    + split; [|done]. cbn. rewrite list_elem_of_filter. by intros [? _].
    + unfold setAppTheme. rewrite Hitem.
      rewrite bool_decide_eq_false_2, bool_decide_eq_true_2 by done.
      unfold onchange, setItem, classList_remove. cbn. f_equal. apply filter_ne_idemp.
Qed.

(** X15. The handler of a change of the system theme writes the item
    [theme] of the storage and no other, keeps every class other than
    [dark], and keeps the registered handler. *)
Theorem onchange_frame (matches : bool) (b : Browser) :
  (∀ key, key ≠ "theme" →
     localStorage (onchange matches b) !! key = localStorage b !! key) ∧
  (∀ c, c ≠ "dark" → (c ∈ classList (onchange matches b) ↔ c ∈ classList b)) ∧
  darkQuery_onchange (onchange matches b) = darkQuery_onchange b.
Proof.
  unfold onchange. destruct matches; cbn [setItem localStorage classList darkQuery_onchange].
  - split; [intros key Hkey; by rewrite lookup_insert_ne|]. split; [|done].
    intros c Hc. fold (classList (classList_add "dark" b)).
    rewrite elem_of_classList_add. tauto.
  - split; [intros key Hkey; by rewrite lookup_insert_ne|]. split; [|done].
    intros c Hc. fold (classList (classList_remove "dark" b)).
    rewrite elem_of_classList_remove. tauto.
Qed.

End LayoutFacts.

(** ** The small blog *)

Module DemoFacts.

Import RegExp MdxUtils MdxSpec MdxFacts Demo.

Lemma blog_distinct_entries : distinct_entries blog.
Proof.
  intros entries Hdir. vm_compute in Hdir. injection Hdir as <-.
  by apply (bool_decide_unpack _).
Qed.

Lemma getPostFilePaths_md_entries_witness :
  ∃ paths,
    getPostFilePaths blog = Some paths ∧
    paths = filter md_extension ["alpha.mdx"; "beta.md"; "gamma.mdx"; "notes.txt"] ∧
    paths `sublist_of` ["alpha.mdx"; "beta.md"; "gamma.mdx"; "notes.txt"] ∧
    ∀ name, name ∈ paths ↔
      name ∈ ["alpha.mdx"; "beta.md"; "gamma.mdx"; "notes.txt"] ∧ md_extension name.
Proof. apply (getPostFilePaths_md_entries blog). reflexivity. Defined.

Lemma getPosts_sorted_witness :
  ∃ a h' sps,
    getPosts blog [] = Some (a, h') ∧
    array_posts h' a = Some sps ∧
    sps ≡ₚ [alpha; beta; gamma] ∧
    date_descending blog sps.
Proof.
  apply (getPosts_sorted blog [] ["alpha.mdx"; "beta.md"; "gamma.mdx"]).
  - reflexivity.
  - reflexivity.
  - repeat constructor; discriminate.
Defined.

Lemma getNextPostBySlug_newer_witness :
  ∃ r,
    getNextPostBySlug blog "alpha" [] = Some (r, blog_heap) ∧
    (r = None ↔ 2%nat = 0%nat) ∧
    (∃ q stem,
       [gamma; beta; alpha] !! 1%nat = Some q ∧
       (filePath q = stem +:+ ".md" ∨ filePath q = stem +:+ ".mdx") ∧
       r = Some {| Link.title := title (data q); Link.slug := stem |}) ∧
    date_neighbours blog beta alpha [gamma; beta; alpha].
Proof.
  destruct (getNextPostBySlug_newer blog "alpha" [] blog_heap 3 [gamma; beta; alpha] 2 alpha
              blog_distinct_entries eq_refl eq_refl eq_refl eq_refl)
    as (r & Hrun & Hnull & Hlink & Hdates).
  exists r. split; [exact Hrun|]. split; [exact Hnull|].
  split; [exact (Hlink 1%nat eq_refl)|].
  destruct Hdates as [_ Hneighbours]; [repeat constructor; discriminate|].
  exact (Hneighbours 1%nat beta eq_refl eq_refl).
Defined.

Lemma getPreviousPostBySlug_older_witness :
  ∃ r,
    getPreviousPostBySlug blog "gamma" [] = Some (r, blog_heap) ∧
    (r = None ↔ length [gamma; beta; alpha] = 1%nat) ∧
    (∃ stem,
       (filePath beta = stem +:+ ".md" ∨ filePath beta = stem +:+ ".mdx") ∧
       r = Some {| Link.title := title (data beta); Link.slug := stem |}) ∧
    date_neighbours blog gamma beta [gamma; beta; alpha].
Proof.
  destruct (getPreviousPostBySlug_older blog "gamma" [] blog_heap 3 [gamma; beta; alpha] 0 gamma
              blog_distinct_entries eq_refl eq_refl eq_refl eq_refl)
    as (r & Hrun & Hnull & Hlink & Hdates).
  exists r. split; [exact Hrun|]. split; [exact Hnull|].
  split; [exact (Hlink beta eq_refl)|].
  destruct Hdates as [_ Hneighbours]; [repeat constructor; discriminate|].
  exact (Hneighbours beta eq_refl).
Defined.

Lemma no_current_post_witness :
  getNextPostBySlug blog "delta" [] = Some (None, blog_heap) ∧
  (∃ stem,
     (filePath gamma = stem +:+ ".md" ∨ filePath gamma = stem +:+ ".mdx") ∧
     getPreviousPostBySlug blog "delta" []
       = Some (Some {| Link.title := title (data gamma); Link.slug := stem |}, blog_heap)) ∧
  newest blog gamma [gamma; beta; alpha].
Proof.
  destruct (no_current_post blog "delta" [] blog_heap 3 [gamma; beta; alpha])
    as [Hnext Hprevious].
  - reflexivity.
  - reflexivity.
  - repeat constructor; discriminate.
  - destruct (Hprevious gamma [beta; alpha] eq_refl) as [Hlink Hnewest].
    split; [exact Hnext|]. split; [exact Hlink|].
    apply Hnewest. repeat constructor; discriminate.
Defined.

(** *** The blog with a draft *)

Lemma getPosts_drafts :
  getPosts drafts [] = Some (3%nat, drafts_heap) ∧
  array_posts drafts_heap 3 = Some [alpha; undated; gamma].
Proof. split; reflexivity. Qed.

Lemma gamma_newer_than_alpha : date_ge drafts gamma alpha ∧ ¬ date_ge drafts alpha gamma.
Proof. unfold date_ge. cbn. lia. Qed.

(** C2, as stated, fails on the blog with a draft: [getPosts] leaves the
    posts in the order of the listing, the post of [alpha.mdx] is first and
    its next post is null, though the post of [gamma.mdx] is newer. *)
Lemma getNextPostBySlug_undated :
  getPosts drafts [] = Some (3%nat, drafts_heap) ∧
  array_posts drafts_heap 3 = Some [alpha; undated; gamma] ∧
  filePath alpha = "alpha" +:+ ".mdx" ∧
  getNextPostBySlug drafts "alpha" [] = Some (None, drafts_heap) ∧
  ¬ newest drafts alpha [alpha; undated; gamma] ∧
  date_ge drafts gamma alpha ∧ ¬ date_ge drafts alpha gamma.
Proof.
  destruct getPosts_drafts as [Hget Hps]. destruct gamma_newer_than_alpha as [Hge Hnot].
  split; [exact Hget|]. split; [exact Hps|]. split; [reflexivity|].
  split; [reflexivity|]. split; [|by split].
  intros Hnewest. apply Hnot, Hnewest. set_solver.
Qed.

(** C3, as stated, fails on the blog with a draft: the post of [gamma.mdx]
    is last and its previous post is null, though the post of [alpha.mdx]
    is older. *)
Lemma getPreviousPostBySlug_undated :
  getPosts drafts [] = Some (3%nat, drafts_heap) ∧
  array_posts drafts_heap 3 = Some [alpha; undated; gamma] ∧
  filePath gamma = "gamma" +:+ ".mdx" ∧
  getPreviousPostBySlug drafts "gamma" [] = Some (None, drafts_heap) ∧
  ¬ oldest drafts gamma [alpha; undated; gamma] ∧
  date_ge drafts gamma alpha ∧ ¬ date_ge drafts alpha gamma.
Proof.
  destruct getPosts_drafts as [Hget Hps]. destruct gamma_newer_than_alpha as [Hge Hnot].
  split; [exact Hget|]. split; [exact Hps|]. split; [reflexivity|].
  split; [reflexivity|]. split; [|by split].
  intros Holdest. apply Hnot, Holdest. set_solver.
Qed.

(** C8, as stated, fails on the blog with a draft: for a slug that no post
    has, the previous post is the post of [alpha.mdx], the first of the
    array, which is not the newest post. *)
Lemma no_current_post_undated :
  getPosts drafts [] = Some (3%nat, drafts_heap) ∧
  array_posts drafts_heap 3 = Some [alpha; undated; gamma] ∧
  Forall (λ p, filePath p ≠ "delta" +:+ ".mdx") [alpha; undated; gamma] ∧
  getPreviousPostBySlug drafts "delta" []
    = Some (Some {| Link.title := Some "Alpha"; Link.slug := "alpha" |}, drafts_heap) ∧
  ¬ newest drafts alpha [alpha; undated; gamma] ∧
  date_ge drafts gamma alpha ∧ ¬ date_ge drafts alpha gamma.
Proof.
  destruct getPosts_drafts as [Hget Hps]. destruct gamma_newer_than_alpha as [Hge Hnot].
  split; [exact Hget|]. split; [exact Hps|].
  split; [repeat constructor; discriminate|].
  split; [reflexivity|]. split; [|by split].
  intros Hnewest. apply Hnot, Hnewest. set_solver.
Qed.

(** C4. The file [beta.md] is among the file paths and its slug is
    [beta], but the lookups by this slug miss the file: [getPostBySlug]
    reads [beta.mdx], which does not exist, and the navigation functions
    find no current post, so that the next post is null and the previous
    post is the newest one, where the neighbours of [beta.md] are
    [gamma.mdx] and [alpha.mdx]. *)
Theorem md_slug_lookup_misses :
  getPostFilePaths blog = Some ["alpha.mdx"; "beta.md"; "gamma.mdx"] ∧
  replace "beta.md" MDX_RE EmptyString = "beta" ∧
  getPostBySlug blog "beta" = None ∧
  getPosts blog [] = Some (3%nat, blog_heap) ∧
  array_posts blog_heap 3 = Some [gamma; beta; alpha] ∧
  getNextPostBySlug blog "beta" [] = Some (None, blog_heap) ∧
  getPreviousPostBySlug blog "beta" []
    = Some (Some {| Link.title := Some "Gamma"; Link.slug := "gamma" |}, blog_heap).
Proof. repeat split; reflexivity. Qed.

Lemma undated_not_ge (p : Post) : ¬ date_ge blog undated p ∧ ¬ date_ge blog p undated.
Proof.
  unfold date_ge. split; [cbn; tauto|].
  destruct (new_Date blog (date (data p))); cbn; tauto.
Qed.

(** C9, as stated, fails on an array that holds a post without a date:
    the dates 10 and 20 stay in ascending order, and no order of these
    three posts is descending. *)
Lemma sortPostsByDate_undated :
  array_posts draft_heap 3 = Some [alpha; undated; beta] ∧
  sortPostsByDate blog 3 draft_heap = Some (3%nat, draft_heap) ∧
  ¬ date_descending blog [alpha; undated; beta] ∧
  ¬ date_ge blog alpha beta ∧
  ∀ ps', ps' ≡ₚ [alpha; undated; beta] → ¬ date_descending blog ps'.
Proof.
  split; [reflexivity|]. split; [reflexivity|].
  assert (Hall : ∀ ps', ps' ≡ₚ [alpha; undated; beta] → ¬ date_descending blog ps').
  { intros ps' Hperm Hdesc.
    pose proof (Permutation_length Hperm) as Hlen.
    destruct ps' as [|x [|y [|z [|]]]]; try discriminate Hlen.
    assert (Hin : undated ∈ [x; y; z]) by (rewrite Hperm; set_solver).
    pose proof (Hdesc 0%nat x y eq_refl eq_refl) as Hxy.
    pose proof (Hdesc 1%nat y z eq_refl eq_refl) as Hyz.
    apply elem_of_cons in Hin as [<-|Hin]; [by apply (undated_not_ge y)|].
    apply elem_of_cons in Hin as [<-|Hin]; [by apply (undated_not_ge z)|].
    apply list_elem_of_singleton in Hin as <-. by apply (undated_not_ge y). }
  split; [by apply Hall|]. split; [|done].
  unfold date_ge. cbn. lia.
Qed.

Lemma sortPostsByDate_in_place_witness :
  ∃ h' ps',
    sortPostsByDate blog 3 listing_heap = Some (3%nat, h') ∧
    array_posts h' 3 = Some ps' ∧
    ps' ≡ₚ [alpha; beta; gamma] ∧
    date_descending blog ps'.
Proof.
  destruct (sortPostsByDate_in_place blog listing_heap 3 [alpha; beta; gamma] eq_refl)
    as (h' & ps' & Hrun & _ & _ & Hps & Hperm & Hdesc).
  exists h', ps'. split; [exact Hrun|]. split; [exact Hps|]. split; [exact Hperm|].
  apply Hdesc. repeat constructor; discriminate.
Defined.

Lemma getGlobalData_fields_witness :
  ∃ g,
    GlobalData.getGlobalData plain {[ "BLOG_NAME" := "Ada" ]} = Some g ∧
    GlobalDataSpec.field_of plain {[ "BLOG_NAME" := "Ada" ]} "BLOG_NAME" "Jay Doe"
      (GlobalData.name g) ∧
    GlobalDataSpec.field_of plain {[ "BLOG_NAME" := "Ada" ]} "BLOG_TITLE" "Next.js Blog Theme"
      (GlobalData.blogTitle g) ∧
    GlobalDataSpec.field_of plain {[ "BLOG_NAME" := "Ada" ]} "BLOG_FOOTER_TEXT"
      "All rights reserved." (GlobalData.footerText g).
Proof.
  apply (GlobalDataFacts.getGlobalData_fields plain {[ "BLOG_NAME" := "Ada" ]});
    intros s _ _; by exists s.
Defined.

Lemma night_env_selected :
  TailwindSpec.selected night_env "BLOG_THEME" "default" "night" ∧
  TailwindSpec.selected night_env "BLOG_FONT_HEADINGS" "sans-serif" "serif" ∧
  TailwindSpec.selected night_env "BLOG_FONT_BODY" "sans-serif" "sans-serif".
Proof.
  repeat split; intros;
    match goal with H : night_env !! _ = _ |- _ => vm_compute in H; congruence end.
Qed.

Lemma themesConfig_variables_witness :
  ∃ cssVars,
    TailwindPreset.themesConfig color_themes font_themes night_env
      = Some [ {[ ".theme-compiled" := cssVars ]} ] ∧
    cssVars !! "--color-primary" = Some (TailwindPreset.Str "#FF8585") ∧
    (∃ v, cssVars !! "--font-primary" = Some v ∧
          TailwindSpec.read_at font_themes "serif" v) ∧
    (∃ v, cssVars !! "--font-secondary" = Some v ∧
          TailwindSpec.read_at font_themes "sans-serif" v) ∧
    size cssVars = 3%nat.
Proof.
  destruct night_env_selected as (Htheme & Hheading & Hbody).
  assert (Hnight : color_themes !! "night" = Some night_theme)
    by (vm_compute; reflexivity).
  destruct (TailwindPresetFacts.themesConfig_variables color_themes font_themes night_env
              night_theme "night" "serif" "sans-serif" Htheme Hheading Hbody Hnight)
    as (cssVars & Hrun & Hcolor & Hprimary & Hsecondary & _ & Hsize).
  exists cssVars. split; [exact Hrun|].
  split; [apply (Hcolor "primary"); vm_compute; reflexivity|].
  split; [exact Hprimary|]. split; [exact Hsecondary|exact Hsize].
Defined.

Lemma odd_env_selected :
  TailwindSpec.selected odd_env "BLOG_THEME" "default" "default" ∧
  TailwindSpec.selected odd_env "BLOG_FONT_HEADINGS" "sans-serif" "constructor" ∧
  TailwindSpec.selected odd_env "BLOG_FONT_BODY" "sans-serif" "sans-serif".
Proof.
  repeat split; intros;
    match goal with H : odd_env !! _ = _ |- _ => vm_compute in H; congruence end.
Qed.

Lemma themesConfig_missing_witness :
  TailwindPreset.themesConfig color_themes font_themes odd_env ≠ None ∧
  ∀ components,
    TailwindPreset.themesConfig color_themes font_themes odd_env = Some components →
    ∃ cssVars,
      components = [ {[ ".theme-compiled" := cssVars ]} ] ∧
      cssVars !! "--font-primary" = Some (TailwindPreset.Inherited "constructor").
Proof.
  destruct odd_env_selected as (Htheme & Hheading & Hbody).
  destruct (TailwindPresetFacts.themesConfig_missing color_themes font_themes odd_env
              "default" "constructor" "sans-serif" Htheme Hheading Hbody)
    as [Hthrows Hfonts].
  split; [intros Hnone; apply Hthrows in Hnone; vm_compute in Hnone; congruence|].
  intros components Hrun.
  destruct (Hfonts components Hrun) as (cssVars & Hcomponents & _ & Hinherited & _).
  exists cssVars. split; [exact Hcomponents|]. apply Hinherited.
  split; [vm_compute; reflexivity|by apply (bool_decide_unpack _)].
Defined.

Lemma mount_theme_class_witness :
  "dark" ∈ Layout.classList (Layout.mount dark_browser) ∧
  ∀ c, c ≠ "dark" →
    (c ∈ Layout.classList (Layout.mount dark_browser) ↔ c ∈ Layout.classList dark_browser).
Proof.
  destruct (LayoutFacts.mount_theme_class dark_browser) as (_ & Hdark & _).
  apply Hdark. reflexivity.
Defined.

(** *** The further facts on the small blog *)

Lemma getPosts_fresh_witness :
  ([] : list Obj) !! 3%nat = None ∧
  (∀ l o, ([] : list Obj) !! l = Some o → blog_heap !! l = Some o) ∧
  ∃ paths sps,
    getPostFilePaths blog = Some paths ∧
    array_posts blog_heap 3 = Some sps ∧
    filePath <$> sps ≡ₚ paths.
Proof. apply (getPosts_fresh blog [] blog_heap 3). reflexivity. Defined.

Lemma sortPostsByDate_sorted_witness :
  sortPostsByDate blog 3 blog_heap = Some (3%nat, blog_heap).
Proof.
  apply (sortPostsByDate_sorted blog blog_heap 3 [gamma; beta; alpha]); [reflexivity|].
  intros [|[|[|i]]] p q; cbn; intros [= <-] [= <-]; unfold date_ge; cbn; lia.
Defined.

Lemma sortPostsByDate_stable_witness :
  ∃ h' ps',
    sortPostsByDate blog 3 ties_heap = Some (3%nat, h') ∧
    array_posts h' 3 = Some ps' ∧
    ∀ t, filter (λ p, new_Date blog (date (data p)) = Finite t) ps'
         = filter (λ p, new_Date blog (date (data p)) = Finite t) [alpha; gamma; delta].
Proof.
  apply (sortPostsByDate_stable blog ties_heap 3 [alpha; gamma; delta]); [reflexivity|].
  repeat constructor; discriminate.
Defined.

Lemma getPostBySlug_same_post_witness :
  getPostBySlug blog "alpha" =
    (mdxSource ← serialize blog (content alpha) (data alpha);
     Some (mdxSource, data alpha, path_join blog (POSTS_PATH blog) ("alpha" +:+ ".mdx"))).
Proof.
  apply (getPostBySlug_same_post blog "alpha" [] blog_heap 3 [gamma; beta; alpha] alpha).
  - reflexivity.
  - reflexivity.
  - set_solver.
  - reflexivity.
Defined.

Lemma journal_distinct_entries : distinct_entries journal.
Proof.
  intros entries Hdir. vm_compute in Hdir. injection Hdir as <-.
  by apply (bool_decide_unpack _).
Qed.

Lemma neighbours_round_trip_witness :
  getPreviousPostBySlug journal "gamma" []
    = Some (Some {| Link.title := title (data alpha); Link.slug := "alpha" |}, journal_heap) ∧
  getNextPostBySlug journal "alpha" []
    = Some (Some {| Link.title := title (data gamma); Link.slug := "gamma" |}, journal_heap).
Proof.
  apply (neighbours_round_trip journal "gamma" "alpha" [] journal_heap 2 [gamma; alpha]
           0 gamma alpha).
  - exact journal_distinct_entries.
  - reflexivity.
  - reflexivity.
  - reflexivity.
  - reflexivity.
  - reflexivity.
  - reflexivity.
Defined.

Lemma no_posts_witness :
  getPosts bare [] = Some (length ([] : list Obj), [] ++ [ArrayObj []]) ∧
  getNextPostBySlug bare "alpha" [] = Some (None, [] ++ [ArrayObj []]) ∧
  getPreviousPostBySlug bare "alpha" [] = Some (None, [] ++ [ArrayObj []]).
Proof. apply (no_posts bare "alpha" []). reflexivity. Defined.

Lemma classList_NoDup_witness :
  NoDup (Layout.classList (Layout.mount dark_browser)) ∧
  NoDup (Layout.classList (Layout.onchange false dark_browser)).
Proof.
  apply (LayoutFacts.classList_NoDup dark_browser false).
  apply NoDup_singleton.
Defined.

End DemoFacts.
